(** * shtab: bash completion generation from an argparse parser tree

    Shallow embedding of [shtab/shtab.py]: the [Choice] marker class with its
    comparison methods, the recursive traversal [print_bash_commands], the
    script template of [print_bash] and the entry point [complete]. *)

From Stdlib Require Import ZArith Ascii String List Bool Lia Permutation.
From stdpp Require Import base option list gmap strings sorting.

Open Scope list_scope.
Open Scope string_scope.

(** ** Values *)

(** [class Choice]: [__init__(self, choice_type, required=False)] stores the
    two attributes [type] and [required]. *)
Record Choice := mkChoice { type : string; required : bool }.

(** The elements found in a [choices] container: a [str] or a [Choice]. *)
Inductive obj :=
| Str (s : string)
| Marker (c : Choice).

(** [isinstance(o, Choice)] *)
Definition isinstance_Choice (o : obj) : bool :=
  match o with Marker _ => true | Str _ => false end.

Definition is_str (o : obj) : Prop := exists s, o = Str s.

(** Truth value of an object: a [str] is true when it is not empty; [Choice]
    defines neither [__bool__] nor [__len__], so an instance is always true. *)
Definition truthy (o : obj) : bool :=
  match o with
  | Str s => negb (String.eqb s "")
  | Marker _ => true
  end.

Module ChoiceM.

(** [Choice.__cmp__] *)
Definition __cmp__ (self : Choice) (other : obj) : Z :=
  if required self then (if truthy other then 0 else -1)
  else 0.

(** [Choice.__eq__] *)
Definition __eq__ (self : Choice) (other : obj) : bool :=
  (__cmp__ self other =? 0)%Z.

(** [Choice.__lt__] *)
Definition __lt__ (self : Choice) (other : obj) : bool :=
  (__cmp__ self other <? 0)%Z.

(** [__ne__] is inherited from [object]: the negation of [__eq__]. *)
Definition __ne__ (self : Choice) (other : obj) : bool :=
  negb (__eq__ self other).

(** [__gt__] is supplied by [functools.total_ordering] from [__lt__]:
    [not (self < other) and self != other]. *)
Definition __gt__ (self : Choice) (other : obj) : bool :=
  negb (__lt__ self other) && __ne__ self other.

End ChoiceM.

(** [a < b] as the interpreter evaluates it: the left operand's [__lt__] is
    tried first; [str.__lt__] answers [NotImplemented] for a [Choice], and the
    reflected [Choice.__gt__] decides. Strings compare by code points. *)
Definition py_lt (a b : obj) : bool :=
  match a, b with
  | Str s, Str t => String.ltb s t
  | Marker c, _ => ChoiceM.__lt__ c b
  | Str _, Marker c => ChoiceM.__gt__ c a
  end.

(** [a == b]: [str.__eq__] answers [NotImplemented] for a [Choice], and the
    reflected [Choice.__eq__] decides. *)
Definition py_eq (a b : obj) : bool :=
  match a, b with
  | Str s, Str t => String.eqb s t
  | Marker c, _ => ChoiceM.__eq__ c b
  | Str _, Marker c => ChoiceM.__eq__ c a
  end.

(** ** [sorted]

    The interpreter's list sort as it runs on a list of fewer than 64
    elements: the leading run is found ([count_run]: ascending, or strictly
    descending and then reversed) and every later element is placed by binary
    insertion ([binarysort]). Only [<] is used. A longer list is cut into
    several such runs, which are then merged; that part is not modelled.
    With strings alone every sorting algorithm has the same result; with a
    marker among them [<] is not transitive and the result depends on the
    algorithm. Of the properties below, those about arbitrary trees use only
    that [sorted] rearranges its argument ([sorted_Permutation]). *)

(** Longest prefix [x0 :: ...] continued while [continue prev next]. *)
Fixpoint run_while (continue : obj -> obj -> bool) (prev : obj) (l : list obj)
  : list obj * list obj :=
  match l with
  | [] => ([], [])
  | x :: r =>
      if continue prev x
      then let '(run, rest) := run_while continue x r in (x :: run, rest)
      else ([], l)
  end.

(** The leading run, in ascending order, and the elements after it. *)
Definition count_run (l : list obj) : list obj * list obj :=
  match l with
  | [] => ([], [])
  | [x] => ([x], [])
  | x :: y :: r =>
      if py_lt y x
      then let '(run, rest) := run_while (fun prev next => py_lt next prev) y r in
           (rev (x :: y :: run), rest)
      else let '(run, rest) := run_while (fun prev next => negb (py_lt next prev)) y r in
           (x :: y :: run, rest)
  end.

(** The binary search of [binarysort]:
    [p = l + ((r - l) >> 1); if pivot < a[p]: r = p else: l = p + 1]. *)
Fixpoint bisect (steps : nat) (a : list obj) (pivot : obj) (l r : nat) : nat :=
  match steps with
  | O => l
  | S steps' =>
      if (l <? r)%nat then
        let p := (l + (r - l) / 2)%nat in
        if py_lt pivot (nth p a pivot)
        then bisect steps' a pivot l p
        else bisect steps' a pivot (p + 1)%nat r
      else l
  end.

Definition insert_pivot (a : list obj) (pivot : obj) : list obj :=
  let l := bisect (S (length a)) a pivot 0 (length a) in
  take l a ++ pivot :: drop l a.

Definition binarysort (run rest : list obj) : list obj :=
  fold_left insert_pivot rest run.

Definition sorted (l : list obj) : list obj :=
  let '(run, rest) := count_run l in binarysort run rest.

Definition FILE_required := Marker (mkChoice "file" true).
Definition FILE_optional := Marker (mkChoice "file" false).

(** ** The parser tree

    What the traversal reads of an [argparse.ArgumentParser]: [prog], the
    optional actions with their [option_strings], and the positional actions
    with [dest] and [choices]. A [choices] container is kept as the ordered
    sequence of its elements, each with the sub-parser that indexing by it
    yields, if any: a sub-parsers mapping has a parser under every name, a
    plain list such as [Required.FILE] has none. [None] and an empty container
    are both the empty sequence (both are false in [if sub.choices]). *)
Record OptionalAction := mkOptional { option_strings : list string }.

Inductive ArgumentParser := mkParser {
  prog : string;
  _get_optional_actions : list OptionalAction;
  _get_positional_actions : list PositionalAction }
with PositionalAction := mkPositional {
  dest : string;
  choices : list (obj * option ArgumentParser) }.

(** Iterating over a container yields its elements in order. *)
Definition iter (cs : list (obj * option ArgumentParser)) : list obj := map fst cs.

(** [sub.choices[cmd]] for a [str] [cmd]: the first entry under that name. *)
Fixpoint getitem (cs : list (obj * option ArgumentParser)) (cmd : string)
  : option ArgumentParser :=
  match cs with
  | [] => None
  | (Str k, v) :: r => if String.eqb k cmd then v else getitem r cmd
  | (Marker _, _) :: r => getitem r cmd
  end.

(** Height of the tree: the recursion depth the traversal can reach. *)
Fixpoint depth (p : ArgumentParser) : nat :=
  S (list_max (map (fun sub =>
       list_max (map (fun kv => match snd kv with
                                | Some q => depth q
                                | None => O
                                end) (choices sub)))
     (_get_positional_actions p))).

(** [get_optional_actions]: [sum((opt.option_strings for opt in ...), [])] *)
Definition get_optional_actions (parser : ArgumentParser) : list string :=
  concat (map option_strings (_get_optional_actions parser)).

(** ** Effects: exceptions, the log, and the traversal's mutable state *)

Inductive Exception :=
| KeyError (k : string)      (* [choice_type2fn[cmd.type]] on an unknown type *)
| ItemError (k : string)     (* [sub.choices[cmd]] has no such item *)
| TypeError                  (* [" ".join] of a list holding a non-[str] *)
| NotImplementedError.

Inductive Level := DEBUG | WARNING.

Inductive LogArg :=
| AStr (s : string)
| AList (l : list obj).

(** A call of [logger.warning] or [logger.debug]: the message template of
    the source and its arguments. *)
Record LogRecord := mkLog { levelname : Level; msg : string; args : list LogArg }.

(** A line written by [print(..., file=fd)] in the traversal, kept as the
    arguments of its [format] call; [getvalue] below renders it.
    [" ".join(opts)] is split in its two halves: the type check of the
    elements happens where the source joins, the concatenation at rendering. *)
Inductive Line :=
| Line_opts (prefix : string) (opts : list string)   (* [{}='{}'] *)
| Line_compgen (prefix : string) (fn : string).       (* [{}_COMPGEN={}] *)

(** The mutable objects the nested [recurse] closes over: the list
    [root_options], the stream [fd], and the module's logger. *)
Record State := mkState {
  root_options : list string;
  fd : list Line;
  records : list LogRecord }.

(** The module's global state: the table [CHOICE_FUNCTIONS] as it currently
    is, and what the logger received. *)
Record World := mkWorld {
  module_CHOICE_FUNCTIONS : gmap string string;
  logged : list LogRecord }.

Inductive Outcome (A : Type) :=
| Return (a : A)
| Raise (e : Exception)
| OutOfFuel.
Arguments Return {A} a.
Arguments Raise {A} e.
Arguments OutOfFuel {A}.

(** A computation over a store [S]: runs from a store to an outcome and the
    store it leaves (what was logged before an exception stays logged). *)
Definition Eff (S A : Type) : Type := S -> Outcome A * S.

Definition ret {S A} (a : A) : Eff S A := fun st => (Return a, st).
Definition raise {S A} (e : Exception) : Eff S A := fun st => (Raise e, st).
Definition out_of_fuel {S A} : Eff S A := fun st => (OutOfFuel, st).
Definition bind {S A B} (c : Eff S A) (k : A -> Eff S B) : Eff S B :=
  fun st =>
    match c st with
    | (Return a, st') => k a st'
    | (Raise e, st') => (Raise e, st')
    | (OutOfFuel, st') => (OutOfFuel, st')
    end.

Notation "'let*' x ':=' c 'in' k" := (bind c (fun x => k))
  (at level 10, x name, c at level 100, k at level 200).
Notation "c ';;' k" := (bind c (fun _ => k))
  (at level 100, k at level 200, right associativity).

(** The traversal runs over [State], the functions around it over [World]. *)
Definition M := Eff State.
Definition W := Eff World.

(** A [for] loop threading the local variable [acc]. *)
Fixpoint for_each {S A B} (l : list A) (body : B -> A -> Eff S B) (acc : B)
  : Eff S B :=
  match l with
  | [] => ret acc
  | x :: r => let* acc' := body acc x in for_each r body acc'
  end.

Definition get_root_options : M (list string) :=
  fun st => (Return (root_options st), st).

(** [root_options.extend(l)] *)
Definition root_options_extend (l : list string) : M unit :=
  fun st => (Return tt, mkState (root_options st ++ l) (fd st) (records st)).

(** [print(line, file=fd)] *)
Definition print (line : Line) : M unit :=
  fun st => (Return tt, mkState (root_options st) (fd st ++ [line]) (records st)).

Definition logger_log (lvl : Level) (m : string) (a : list LogArg) : M unit :=
  fun st => (Return tt,
             mkState (root_options st) (fd st) (records st ++ [mkLog lvl m a])).
Definition logger_warning := logger_log WARNING.
Definition logger_debug := logger_log DEBUG.

(** ** Strings *)

(** [s.replace(old, new)] for a non-empty [old]: the occurrences are found
    left to right and do not overlap; [skip] counts the characters of a
    matched occurrence still to be dropped. *)
Fixpoint replace_from (skip : nat) (old new s : string) : string :=
  match s with
  | EmptyString => EmptyString
  | String c s' =>
      match skip with
      | S n => replace_from n old new s'
      | O =>
          if String.prefix old s
          then new ++ replace_from (String.length old - 1) old new s'
          else String c (replace_from O old new s')
      end
  end.

Definition replace (old new s : string) : string := replace_from O old new s.

(** [sep.join(l)] on strings. *)
Definition join (sep : string) (l : list string) : string := String.concat sep l.

(** The type check of [str.join]: every element must be a [str]. *)
Fixpoint as_strs (l : list obj) : option (list string) :=
  match l with
  | [] => Some []
  | Str s :: r => match as_strs r with Some ss => Some (s :: ss) | None => None end
  | Marker _ :: _ => None
  end.

(** ** The traversal *)

(** The module-level table [CHOICE_FUNCTIONS]. *)
Definition CHOICE_FUNCTIONS : gmap string string :=
  <["file" := "_shtab_compgen_files"]>
    (<["directory" := "_shtab_compgen_files"]> ∅).

(** [if sub.choices]: a container is true when it is not empty. *)
Definition has_choices (sub : PositionalAction) : bool :=
  match choices sub with [] => false | _ :: _ => true end.

(** [i in root_options] *)
Definition contains (root_options : list string) (i : obj) : bool :=
  existsb (fun x => py_eq (Str x) i) root_options.

(** The option list of a node that is not the root, before it is joined:
    the elements of its positionals' choices that are no [Choice], then its
    own option strings, without those already in [root_options]. *)
Definition node_opts (parser : ArgumentParser) (root_options : list string) : list obj :=
  let opts :=
    flat_map (fun sub =>
                if has_choices sub
                then List.filter (fun opt => negb (isinstance_Choice opt)) (iter (choices sub))
                else [])
             (_get_positional_actions parser) in
  let opts := (opts ++ map Str (get_optional_actions parser))%list in
  List.filter (fun i => negb (contains root_options i)) opts.

Section Traversal.

(** Bound by the enclosing [print_bash_commands]. *)
Variable root_prefix : string.
Variable choice_type2fn : gmap string string.

(** The nested function [recurse]; it returns [commands] (the second
    component of the source's result, [root_options], is the state's).
    [fuel] bounds the depth of the recursion: [print_bash_commands] gives
    one more than the height of the tree, which is enough ([recurse_fuel]). *)
Fixpoint recurse (fuel : nat) (parser : ArgumentParser) (prefix : string)
  : M (list obj) :=
  match fuel with
  | O => out_of_fuel
  | S fuel' =>
      let positionals := _get_positional_actions parser in
      (if String.eqb prefix root_prefix then
         root_options_extend (get_optional_actions parser);;
         let* ro := get_root_options in
         logger_warning "global_options: %s" [AList (map Str ro)]
       else
         let* ro := get_root_options in
         let opts := node_opts parser ro in
         match as_strs opts with
         | None => raise TypeError
         | Some opts => print (Line_opts prefix opts)
         end);;
      let* commands :=
        for_each positionals (fun commands sub =>
          if has_choices sub then
            logger_warning "choices:{}:{}"
              [AStr prefix; AList (sorted (iter (choices sub)))];;
            for_each (sorted (iter (choices sub))) (fun commands cmd =>
              match cmd with
              | Marker c =>
                  logger_warning "Choice.{}:{}:{}"
                    [AStr (type c); AStr prefix; AStr (dest sub)];;
                  match choice_type2fn !! type c with
                  | None => raise (KeyError (type c))
                  | Some fn => print (Line_compgen prefix fn)
                  end;;
                  ret commands
              | Str name =>
                  let commands := (commands ++ [cmd])%list in
                  match getitem (choices sub) name with
                  | None => raise (ItemError name)
                  | Some child =>
                      recurse fuel' child (prefix ++ "_" ++ replace "-" "_" name);;
                      ret commands
                  end
              end) commands
          else
            logger_warning "uncompletable:{}:{}" [AStr prefix; AStr (dest sub)];;
            ret commands) [] in
      (match commands with
       | [] => ret tt
       | _ :: _ => logger_debug "subcommands:{}:{}" [AStr prefix; AList commands]
       end);;
      ret commands
  end.

End Traversal.

(** [d.update(other)]: the entries of [other] win. *)
Definition update (d other : gmap string string) : gmap string string := other ∪ d.

(** The first three statements of [print_bash_commands]: a copy of the table,
    updated when [choice_functions] is true (given and not empty). *)
Definition merged_table (table : gmap string string)
    (choice_functions : option (gmap string string)) : gmap string string :=
  let choice_type2fn := table in
  match choice_functions with
  | Some cf => if decide (cf = ∅) then choice_type2fn else update choice_type2fn cf
  | None => choice_type2fn
  end.

(** [print_bash_commands(root_parser, root_prefix, fd, choice_functions)]:
    the lines printed to [fd] (a fresh stream in the only caller) come with
    the result [(commands, root_options)]. [choice_type2fn] is a copy of the
    module's table, so [update] leaves the table itself as it was. *)
Definition print_bash_commands (root_parser : ArgumentParser) (root_prefix : string)
    (choice_functions : option (gmap string string))
  : W (list obj * list string * list Line) :=
  fun w =>
    let choice_type2fn := merged_table (module_CHOICE_FUNCTIONS w) choice_functions in
    let st := mkState [] [] (logged w) in
    match recurse root_prefix choice_type2fn (S (depth root_parser)) root_parser root_prefix st with
    | (Return commands, st') =>
        (Return (commands, root_options st', fd st'), mkWorld (module_CHOICE_FUNCTIONS w) (records st'))
    | (Raise e, st') => (Raise e, mkWorld (module_CHOICE_FUNCTIONS w) (records st'))
    | (OutOfFuel, st') => (OutOfFuel, mkWorld (module_CHOICE_FUNCTIONS w) (records st'))
    end.

(** ** The script *)

Definition nl : string := String "010"%char EmptyString.
Definition dq : string := String "034"%char EmptyString.

(** Lines of a text, joined by line feeds. *)
Definition lines (l : list string) : string := join nl l.

(** [fd.getvalue()] of the traversal's stream: every [print] wrote its
    formatted line and a line feed. *)
Definition render (line : Line) : string :=
  match line with
  | Line_opts prefix opts => prefix ++ "='" ++ join " " opts ++ "'" ++ nl
  | Line_compgen prefix fn => prefix ++ "_COMPGEN=" ++ fn ++ nl
  end.

Definition getvalue (fd : list Line) : string := String.concat "" (map render fd).

(** The first template of [print_bash] with its [format] fields filled in. *)
Definition header (root_prefix commands options global_options subcommands : string)
  : string :=
  lines [
    "#!/usr/bin/env bash";
    "# AUTOMATCALLY GENERATED by `shtab`";
    "";
    root_prefix ++ "_commands_='" ++ commands ++ "'";
    root_prefix ++ "_options_='" ++ options ++ "'";
    root_prefix ++ "_global_options_='" ++ global_options ++ "'";
    "";
    subcommands;
    "";
    ""
  ].

(** The last template of [print_bash], before [replace] fills in the
    prefix. A backslash at the end of a source line continues the line. *)
Definition dispatcher_template : string :=
  lines [
    "";
    "# $1=COMP_WORDS[1]";
    "_shtab_compgen_files() {";
    "  compgen -f -- $1";
    "  compgen -d -S '/' -- $1  # recurse into subdirs";
    "}";
    "";
    "# $1=COMP_WORDS[1]";
    "_shtab_replace_hyphen() {";
    "  echo $1 | sed 's/-/_/g'";
    "}";
    "";
    "# $1=COMP_WORDS[1]";
    "{root_prefix}_compgen_command() {";
    "  local flags_list=" ++ dq ++ "{root_prefix}_$(_shtab_replace_hyphen $1)" ++ dq;
    "  local args_gen=" ++ dq ++ "${flags_list}_COMPGEN" ++ dq;
    "  COMPREPLY=( $(compgen -W " ++ dq ++
      "${root_prefix}_global_options_ ${!flags_list}" ++ dq ++ " -- " ++ dq ++ "$word" ++
      dq ++ "; [ -n " ++ dq ++ "${!args_gen}" ++ dq ++ " ] && ${!args_gen} " ++ dq ++
      "$word" ++ dq ++ ") )";
    "}";
    "";
    "# $1=COMP_WORDS[1]";
    "# $2=COMP_WORDS[2]";
    "{root_prefix}_compgen_subcommand() {";
    "  local flags_list=" ++ dq ++
      "{root_prefix}_$(_shtab_replace_hyphen $1)_$(_shtab_replace_hyphen $2)" ++ dq;
    "  local args_gen=" ++ dq ++ "${flags_list}_COMPGEN" ++ dq;
    "  [ -n " ++ dq ++ "${!args_gen}" ++ dq ++ " ] && local opts_more=" ++ dq ++
      "$(${!args_gen} " ++ dq ++ "$word" ++ dq ++ ")" ++ dq;
    "  local opts=" ++ dq ++ "${!flags_list}" ++ dq;
    "  if [ -z " ++ dq ++ "$opts$opts_more" ++ dq ++ " ]; then";
    "    {root_prefix}_compgen_command $1";
    "  else";
    "    COMPREPLY=( $(compgen -W " ++ dq ++ "${root_prefix}_global_options_ $opts" ++
      dq ++ " -- " ++ dq ++ "$word" ++ dq ++ "; [ -n " ++ dq ++ "$opts_more" ++ dq ++
      " ] && echo " ++ dq ++ "$opts_more" ++ dq ++ ") )";
    "  fi";
    "}";
    "";
    "# Notes:";
    "# `COMPREPLY` contains what will be rendered after completion is triggered";
    "# `word` refers to the current typed word";
    "# `${!var}` is to evaluate the content of `var`";
    "# and expand its content as a variable";
    "#       hello=" ++ dq ++ "world" ++ dq;
    "#       x=" ++ dq ++ "hello" ++ dq;
    "#       ${!x} ->  ${hello} ->  " ++ dq ++ "world" ++ dq;
    "{root_prefix}() {";
    "  local word=" ++ dq ++ "${COMP_WORDS[COMP_CWORD]}" ++ dq;
    "";
    "  COMPREPLY=()";
    "";
    "  if [ " ++ dq ++ "${COMP_CWORD}" ++ dq ++ " -eq 1 ]; then";
    "    case " ++ dq ++ "$word" ++ dq ++ " in";
    "      -*" ++ ") COMPREPLY=($(compgen -W " ++ dq ++ "${root_prefix}_options_" ++ dq ++
      " -- " ++ dq ++ "$word" ++ dq ++ ")) ;;";
    "      *" ++ ") COMPREPLY=($(compgen -W " ++ dq ++ "${root_prefix}_commands_" ++ dq ++
      " -- " ++ dq ++ "$word" ++ dq ++ ")) ;;";
    "    esac";
    "  elif [ " ++ dq ++ "${COMP_CWORD}" ++ dq ++ " -eq 2 ]; then";
    "    {root_prefix}_compgen_command ${COMP_WORDS[1]}";
    "  elif [ " ++ dq ++ "${COMP_CWORD}" ++ dq ++ " -ge 3 ]; then";
    "    {root_prefix}_compgen_subcommand ${COMP_WORDS[1]} ${COMP_WORDS[2]}";
    "  fi";
    "";
    "  return 0";
    "}";
    "";
    "complete -o nospace -F {root_prefix} dvc"
  ].

(** [x or y] on strings, for an argument that may be [None]. *)
Definition or_else (x : option string) (y : string) : string :=
  match x with
  | Some s => if String.eqb s "" then y else s
  | None => y
  end.

(** The first assignment of [print_bash]:
    [root_prefix = "_shtab_" + (root_prefix or parser.prog)]. *)
Definition namespace_prefix (parser : ArgumentParser) (root_prefix : option string)
  : string :=
  "_shtab_" ++ or_else root_prefix (prog parser).

(** The block [print_bash] adds when [preamble] is true (given, not empty). *)
Definition preamble_block (preamble : option string) : string :=
  match preamble with
  | Some p => if String.eqb p "" then ""
              else "# Preamble" ++ nl ++ p ++ nl ++ "# End Preamble" ++ nl
  | None => ""
  end.

(** Logging from a function that runs over [World]. *)
Definition world_warning (m : string) (a : list LogArg) : W unit :=
  fun w => (Return tt, mkWorld (module_CHOICE_FUNCTIONS w) (logged w ++ [mkLog WARNING m a])).

(** [print_bash(parser, root_prefix, fd, preamble, choice_functions)]: the
    text it prints to [fd] with [end=""] is the result. *)
Definition print_bash (parser : ArgumentParser) (root_prefix : option string)
    (preamble : option string) (choice_functions : option (gmap string string))
  : W string :=
  let root_prefix := namespace_prefix parser root_prefix in
  let* r := print_bash_commands parser root_prefix choice_functions in
  let '(commands, global_options, bash) := r in
  let options := get_optional_actions parser in
  world_warning "options %s" [AList (map Str options)];;
  match as_strs commands with
  | None => raise TypeError
  | Some commands =>
      ret (header root_prefix (join " " commands) (join " " options)
                  (join " " global_options) (getvalue bash)
           ++ preamble_block preamble
           ++ replace "{root_prefix}" root_prefix dispatcher_template)
  end.

(** The keyword arguments [complete] passes on to [print_bash]. *)
Record kwargs := mkKwargs {
  kw_root_prefix : option string;
  kw_preamble : option string;
  kw_choice_functions : option (gmap string string) }.

(** [complete(parser, shell="bash", **kwargs)] *)
Definition complete (parser : ArgumentParser) (shell : string) (kw : kwargs) : W string :=
  if String.eqb shell "bash" then
    print_bash parser (kw_root_prefix kw) (kw_preamble kw) (kw_choice_functions kw)
  else raise NotImplementedError.

(** The module as loaded. *)
Definition module_loaded : World := mkWorld CHOICE_FUNCTIONS [].
Definition no_kwargs : kwargs := mkKwargs None None None.

(** ** Example trees *)

(** The scenario of the specification. *)
Definition push_parser : ArgumentParser :=
  mkParser "push" [mkOptional ["--force"]] [].
Definition pull_parser : ArgumentParser :=
  mkParser "pull" [] [mkPositional "file" [(FILE_optional, None)]].
Definition scenario_parser : ArgumentParser :=
  mkParser "tool" [mkOptional ["--verbose"]]
    [mkPositional "command" [(Str "push", Some push_parser); (Str "pull", Some pull_parser)]].

Definition git_parser : ArgumentParser := mkParser "git" [] [].

(** A program whose name has a hyphen, with a subcommand whose name has one. *)
Definition my_tool_parser : ArgumentParser :=
  mkParser "my-tool" [mkOptional ["--verbose"]]
    [mkPositional "command"
       [(Str "dry-run", Some (mkParser "my-tool dry-run" [mkOptional ["-n"]] []))]].

Definition leaf_parser : ArgumentParser := mkParser "all" [mkOptional ["-q"; "--quiet"]] [].

(** A node whose positional mixes a literal and a required marker. *)
Definition mixed_parser : ArgumentParser :=
  mkParser "add" [mkOptional ["--verbose"; "-n"]]
    [mkPositional "target" [(Str "all", Some leaf_parser); (FILE_required, None)]].

(** A root whose only command repeats the root's [--verbose]. *)
Definition nested_parser : ArgumentParser :=
  mkParser "tool" [mkOptional ["--verbose"]]
    [mkPositional "command" [(Str "add", Some mixed_parser)]].

Definition URL := Marker (mkChoice "url" false).

(** [fetch <url>] under a root: the marker's type [url] is not built in. *)
Definition fetch_parser : ArgumentParser :=
  mkParser "fetch" [mkOptional ["--depth"]] [mkPositional "remote" [(URL, None)]].
Definition url_parser : ArgumentParser :=
  mkParser "tool" [mkOptional ["--verbose"]]
    [mkPositional "command" [(Str "fetch", Some fetch_parser);
                             (Str "add", Some mixed_parser)]].

(** Two subcommands whose names differ by hyphen and underscore only. *)
Definition foo_parser : ArgumentParser :=
  mkParser "tool" []
    [mkPositional "command"
       [(Str "foo-bar", Some (mkParser "foo-bar" [mkOptional ["-a"]] []));
        (Str "foo_bar", Some (mkParser "foo_bar" [mkOptional ["-b"]] []))]].

(** A subcommand [a] with its own subcommand [b], next to a subcommand
    [a_b]: distinct names at every node, none with a hyphen. *)
Definition a_b_parser : ArgumentParser :=
  mkParser "tool" []
    [mkPositional "command"
       [(Str "a", Some (mkParser "a" []
                          [mkPositional "sub" [(Str "b", Some (mkParser "b" [] []))]]));
        (Str "a_b", Some (mkParser "a_b" [] []))]].

(** The namespace identifier a line declares. *)
Definition line_prefix (line : Line) : string :=
  match line with
  | Line_opts prefix _ => prefix
  | Line_compgen prefix _ => prefix
  end.

(** ** What a traversal writes

    The lines a traversal that returns has appended to [fd], as a function of
    the tree: [ro] is the content of [root_options] once the root has been
    entered. [recurse_emits] below shows that [recurse] writes exactly these
    lines. *)
Section Emitted.

Variable choice_type2fn : gmap string string.
Variable ro : list string.

(** The declaration of a node that is not the root. *)
Definition own_line (parser : ArgumentParser) (prefix : string) : list Line :=
  match as_strs (node_opts parser ro) with
  | Some opts => [Line_opts prefix opts]
  | None => []
  end.

Fixpoint emitted (fuel : nat) (is_root : bool) (parser : ArgumentParser)
    (prefix : string) : list Line :=
  match fuel with
  | O => []
  | S fuel' =>
      ((if is_root then [] else own_line parser prefix) ++
       flat_map (fun sub =>
         if has_choices sub then
           flat_map (fun cmd =>
             match cmd with
             | Marker c =>
                 match choice_type2fn !! type c with
                 | Some fn => [Line_compgen prefix fn]
                 | None => []
                 end
             | Str name =>
                 match getitem (choices sub) name with
                 | Some child =>
                     emitted fuel' false child (prefix ++ "_" ++ replace "-" "_" name)
                 | None => []
                 end
             end) (sorted (iter (choices sub)))
         else []) (_get_positional_actions parser))%list
  end.

End Emitted.

(** The outcome of the scenario with [commands] as the root's commands. *)
Definition scenario_result (commands : list obj) : Prop :=
  exists lines,
    fst (print_bash_commands scenario_parser "_shtab_tool" None module_loaded)
    = Return (commands, ["--verbose"], lines)
    /\ In (Line_opts "_shtab_tool_push" ["--force"]) lines
    /\ In (Line_opts "_shtab_tool_pull" []) lines
    /\ In (Line_compgen "_shtab_tool_pull" "_shtab_compgen_files") lines.

(** ** Trees with a marker the table does not know *)

(** [parser] holds, at a node the traversal reaches (the root, or a
    sub-parser that indexing by a subcommand name yields), a marker whose
    type is not a key of [table]. *)
Inductive has_unknown_marker (table : gmap string string) : ArgumentParser -> Prop :=
| unknown_here (parser : ArgumentParser) (sub : PositionalAction) (c : Choice) :
    In sub (_get_positional_actions parser) ->
    In (Marker c) (iter (choices sub)) ->
    table !! type c = None ->
    has_unknown_marker table parser
| unknown_below (parser : ArgumentParser) (sub : PositionalAction) (name : string)
    (child : ArgumentParser) :
    In sub (_get_positional_actions parser) ->
    In (Str name) (iter (choices sub)) ->
    getitem (choices sub) name = Some child ->
    has_unknown_marker table child ->
    has_unknown_marker table parser.

(** ** Independence from the log *)

(** Two states with the same [root_options] and [fd]; the log may differ. *)
Definition same_data (s1 s2 : State) : Prop :=
  root_options s1 = root_options s2 /\ fd s1 = fd s2.

(** A computation that never reads the log: from states with the same data
    it reaches the same outcome and states with the same data. *)
Definition log_blind {A} (c : M A) : Prop :=
  forall s1 s2, same_data s1 s2 ->
    fst (c s1) = fst (c s2) /\ same_data (snd (c s1)) (snd (c s2)).

(** ** Node identifiers *)

(** The identifiers under which nodes are declared: the left sides of the
    option lines. *)
Definition node_ids (lines : list Line) : list string :=
  flat_map (fun line => match line with
                        | Line_opts prefix _ => [prefix]
                        | Line_compgen _ _ => []
                        end) lines.

Definition literal (o : obj) : list string :=
  match o with Str s => [s] | Marker _ => [] end.

(** The subcommand names of a node, over all its positionals. *)
Definition child_names (parser : ArgumentParser) : list string :=
  flat_map (fun sub => flat_map literal (iter (choices sub)))
           (_get_positional_actions parser).

(** A name with neither hyphen nor underscore. *)
Fixpoint plain (name : string) : bool :=
  match name with
  | EmptyString => true
  | String c r => negb (Ascii.eqb c "-") && negb (Ascii.eqb c "_") && plain r
  end.

(** Every node the traversal reaches has pairwise distinct, plain
    subcommand names. *)
Inductive well_named : ArgumentParser -> Prop :=
| well_named_node (parser : ArgumentParser) :
    NoDup (child_names parser) ->
    Forall (fun name => plain name = true) (child_names parser) ->
    (forall sub name child,
        In sub (_get_positional_actions parser) ->
        getitem (choices sub) name = Some child -> well_named child) ->
    well_named parser.

(** What may follow a node's prefix in the identifiers below it: nothing,
    or an underscore and more. *)
Definition tail_ok (t : string) : Prop := t = "" \/ exists t', t = "_" ++ t'.

(** The lines written for the entry [cmd] of the positional [sub]. *)
Definition below (choice_type2fn : gmap string string) (ro : list string)
    (fuel : nat) (prefix : string) (sub : PositionalAction) (cmd : obj) : list Line :=
  match cmd with
  | Marker c =>
      match choice_type2fn !! type c with
      | Some fn => [Line_compgen prefix fn]
      | None => []
      end
  | Str name =>
      match getitem (choices sub) name with
      | Some child =>
          emitted choice_type2fn ro fuel false child (prefix ++ "_" ++ replace "-" "_" name)
      | None => []
      end
  end.

(** The identifier [id] shows the plain subcommand name [name] right after
    [prefix]. *)
Definition shows (prefix : string) (name id : string) : Prop :=
  plain name = true /\ exists t, tail_ok t /\ id = prefix ++ "_" ++ name ++ t.

(** [t] is the end of the text [s]. *)
Definition text_ends_with (s t : string) : Prop := exists pre, s = pre ++ t.

(** [s.endswith(t)] *)
Definition endswith (s t : string) : bool :=
  String.eqb (substring (String.length s - String.length t) (String.length t) s) t.



(** ** The marker lists of the module *)

(** [class Optional]: [FILE = [Choice("file")]] and
    [DIR = DIRECTORY = [Choice("directory")]]. *)
Module Optional.
Definition FILE : list obj := [Marker (mkChoice "file" false)].
Definition DIR : list obj := [Marker (mkChoice "directory" false)].
Definition DIRECTORY : list obj := DIR.
End Optional.

(** [class Required]: the same lists with [required=True]. *)
Module Required.
Definition FILE : list obj := [Marker (mkChoice "file" true)].
Definition DIR : list obj := [Marker (mkChoice "directory" true)].
Definition DIRECTORY : list obj := DIR.
End Required.

(** [x in l] for a list [l]: some element is equal to [x]. This is the
    test [argparse] makes of a value against [choices]. *)
Definition py_in (x : obj) (l : list obj) : bool :=
  existsb (fun e => py_eq e x) l.

(** ** Trees the traversal gets through *)

(** At every node the traversal reaches, each marker has its type in
    [table] and each literal entry has a sub-parser under its name. *)
Inductive traversable (table : gmap string string) : ArgumentParser -> Prop :=
| traversable_node (parser : ArgumentParser) :
    (forall sub c,
        In sub (_get_positional_actions parser) ->
        In (Marker c) (iter (choices sub)) ->
        exists fn, table !! type c = Some fn) ->
    (forall sub name,
        In sub (_get_positional_actions parser) ->
        In (Str name) (iter (choices sub)) ->
        exists child, getitem (choices sub) name = Some child) ->
    (forall sub name child,
        In sub (_get_positional_actions parser) ->
        getitem (choices sub) name = Some child ->
        traversable table child) ->
    traversable table parser.

(** A computation that returns from every state. *)
Definition returns {S A} (c : Eff S A) : Prop :=
  forall st, exists a st', c st = (Return a, st').



(** The literal entries of a node's positionals, each positional's in the
    order [sorted] gives them. *)
Definition sorted_literals (parser : ArgumentParser) : list obj :=
  flat_map (fun sub =>
              List.filter (fun cmd => negb (isinstance_Choice cmd))
                          (sorted (iter (choices sub))))
           (_get_positional_actions parser).

(** A text without hyphen. *)
Fixpoint no_hyphen (s : string) : bool :=
  match s with
  | EmptyString => true
  | String c r => negb (Ascii.eqb c "-") && no_hyphen r
  end.

(** [parser.prog = p] *)
Definition with_prog (parser : ArgumentParser) (p : string) : ArgumentParser :=
  mkParser p (_get_optional_actions parser) (_get_positional_actions parser).

(** ** The command line: [main.py]

    [main] from the namespace [parse_args] has returned. What the import
    system finds is a parameter: [import_module sys_path name] is the module
    of that name, [ImportError], or another exception. A module is the map of
    its attributes; an attribute [main] can use is a parser or a function
    that returns one. The assignment to [prog] is followed on the parser
    [main] goes on with; one call of [main] is modelled, so that the module
    keeps the changed parser afterwards is not. *)

Record Namespace := mkNamespace {
  arg_parser : string;
  arg_shell : string;
  arg_prefix : option string;
  arg_preamble : option string;
  arg_prog : option string;
  arg_error_unimportable : bool }.

Inductive Attribute :=
| a_parser (p : ArgumentParser)
| a_function (p : ArgumentParser).

Inductive Imported :=
| imported (m : gmap string Attribute)
| import_error
| import_raises.

Inductive MainException :=
| ValueError             (* a path without dot does not unpack in two *)
| ImportError
| OtherImportException   (* any other exception of [import_module], the
                            [ValueError] for an empty module name among them *)
| AttributeError         (* the module has no such attribute *)
| FromComplete (e : Exception).

Inductive MainOutcome :=
| Returned
| MainRaised (e : MainException)
| Unfinished.

(** What [main]'s own logger received. *)
Inductive MainLog :=
| log_args (args : Namespace)
| log_import_error (name : string).

Record Process := mkProcess {
  sys_path : list string;
  stdout : list string;
  main_log : list MainLog;
  shtab : World }.

(** A text with a dot. *)
Fixpoint has_dot (s : string) : bool :=
  match s with
  | EmptyString => false
  | String c r => Ascii.eqb c "." || has_dot r
  end.

(** [s.rsplit(".", 1)] unpacked in two: the texts before and after the last
    dot; nothing when there is no dot. *)
Fixpoint rsplit_dot (s : string) : option (string * string) :=
  match s with
  | EmptyString => None
  | String c r =>
      match rsplit_dot r with
      | Some (a, b) => Some (String c a, b)
      | None => if Ascii.eqb c "." then Some (EmptyString, r) else None
      end
  end.

(** [s.split(".", 1)[0]]: the text before the first dot. *)
Fixpoint split_dot_first (s : string) : string :=
  match s with
  | EmptyString => EmptyString
  | String c r => if Ascii.eqb c "." then EmptyString else String c (split_dot_first r)
  end.

(** [if sys.path and sys.path[0]: sys.path.insert(1, os.curdir)] *)
Definition insert_curdir (path : list string) : list string :=
  match path with
  | [] => []
  | first :: others => if String.eqb first "" then path else first :: "." :: others
  end.

(** [if args.prog: other_parser.prog = args.prog] *)
Definition override_prog (parser : ArgumentParser) (prog : option string)
  : ArgumentParser :=
  match prog with
  | Some p => if String.eqb p "" then parser else with_prog parser p
  | None => parser
  end.

Section Main.

Variable import_module : list string -> string -> Imported.

Definition main (args : Namespace) (pr : Process) : MainOutcome * Process :=
  let log := (main_log pr ++ [log_args args])%list in
  match rsplit_dot (arg_parser args) with
  | None => (MainRaised ValueError, mkProcess (sys_path pr) (stdout pr) log (shtab pr))
  | Some (module, other_parser) =>
      let path := insert_curdir (sys_path pr) in
      match import_module path module with
      | import_error =>
          if arg_error_unimportable args
          then (MainRaised ImportError, mkProcess path (stdout pr) log (shtab pr))
          else (Returned,
                mkProcess path (stdout pr) (log ++ [log_import_error module])%list
                          (shtab pr))
      | import_raises =>
          (MainRaised OtherImportException, mkProcess path (stdout pr) log (shtab pr))
      | imported m =>
          match m !! other_parser with
          | None => (MainRaised AttributeError, mkProcess path (stdout pr) log (shtab pr))
          | Some attribute =>
              let other_parser :=
                match attribute with
                | a_parser p => p
                | a_function p => p
                end in
              let other_parser := override_prog other_parser (arg_prog args) in
              let kw :=
                mkKwargs (Some (or_else (arg_prefix args)
                                        (split_dot_first (arg_parser args))))
                         (arg_preamble args) None in
              match complete other_parser (arg_shell args) kw (shtab pr) with
              | (Return out, w) =>
                  (Returned, mkProcess path (stdout pr ++ [(out ++ nl)%string])%list log w)
              | (Raise e, w) =>
                  (MainRaised (FromComplete e), mkProcess path (stdout pr) log w)
              | (OutOfFuel, w) => (Unfinished, mkProcess path (stdout pr) log w)
              end
          end
      end
  end.

End Main.

(** The namespace with another [--prog]. *)
Definition set_arg_prog (args : Namespace) (prog : option string) : Namespace :=
  mkNamespace (arg_parser args) (arg_shell args) (arg_prefix args)
              (arg_preamble args) prog (arg_error_unimportable args).

(** A process to start from, and an import system that knows one module. *)
Definition fresh_process : Process :=
  mkProcess ["/usr/bin"; "/usr/lib/python3"] [] [] module_loaded.

Definition one_module (path : list string) (name : string) : Imported :=
  if String.eqb name "tool.cli"
  then imported (<["make_parser" := a_function nested_parser]>
                   (<["parser" := a_parser scenario_parser]> ∅))
  else import_error.

(** ** The order of strings *)

(** Both are strings, and the first comes before the second. *)
Definition str_lt (a b : obj) : Prop :=
  exists s t, a = Str s /\ b = Str t /\ String.ltb s t = true.

(** Both are strings, and the second does not come before the first. *)
Definition str_le (a b : obj) : Prop :=
  exists s t, a = Str s /\ b = Str t /\ String.ltb t s = false.

(** * Properties *)

(** ** The comparison methods and [sorted] *)

Example sorted_strings :
  sorted [Str "push"; Str "pull"; Str "add"; Str "status"; Str "commit"]
  = [Str "add"; Str "commit"; Str "pull"; Str "push"; Str "status"].
Proof. vm_compute. reflexivity. Qed.

Example sorted_mixed :
  sorted [Str "b"; FILE_required; Str "a"] = [Str "b"; FILE_required; Str "a"].
Proof. vm_compute. reflexivity. Qed.

Example replace_hyphens : replace "-" "_" "foo-bar-baz" = "foo_bar_baz".
Proof. reflexivity. Qed.

Example replace_no_overlap : replace "aa" "b" "aaa" = "ba".
Proof. reflexivity. Qed.

Lemma nothing_lt_marker (x : obj) (c : Choice) : py_lt x (Marker c) = false.
Proof.
  destruct x as [s|c']; cbn.
  - unfold ChoiceM.__gt__, ChoiceM.__ne__, ChoiceM.__lt__, ChoiceM.__eq__, ChoiceM.__cmp__.
    destruct (required c); [destruct (truthy (Str s))|]; reflexivity.
  - unfold ChoiceM.__lt__, ChoiceM.__cmp__. cbn.
    destruct (required c'); reflexivity.
Qed.


Lemma run_while_app (continue : obj -> obj -> bool) (l : list obj) :
  forall prev run rest, run_while continue prev l = (run, rest) -> (run ++ rest)%list = l.
Proof.
  induction l as [|x r IH]; intros prev run rest H; cbn in H.
  - inversion H; reflexivity.
  - destruct (continue prev x).
    + destruct (run_while continue x r) as [run' rest'] eqn:E.
      inversion H; subst. cbn. f_equal. eauto.
    + inversion H; reflexivity.
Qed.

Lemma count_run_Permutation (l run rest : list obj) :
  count_run l = (run, rest) -> Permutation (run ++ rest) l.
Proof.
  destruct l as [|x [|y r]]; cbn; intros H.
  - inversion H; reflexivity.
  - inversion H; reflexivity.
  - destruct (py_lt y x).
    + destruct (run_while _ y r) as [run' rest'] eqn:E.
      apply run_while_app in E. inversion H; subst.
      change (Permutation (rev (x :: y :: run') ++ rest) ((x :: y :: run') ++ rest)).
      apply Permutation_app_tail. symmetry. apply Permutation_rev.
    + destruct (run_while _ y r) as [run' rest'] eqn:E.
      apply run_while_app in E. inversion H; subst. reflexivity.
Qed.

Lemma insert_pivot_Permutation (a : list obj) (pivot : obj) :
  Permutation (insert_pivot a pivot) (pivot :: a).
Proof.
  unfold insert_pivot. symmetry.
  rewrite <- (take_drop (bisect (S (length a)) a pivot 0 (length a)) a) at 1.
  apply Permutation_middle.
Qed.

Lemma binarysort_Permutation (rest run : list obj) :
  Permutation (binarysort run rest) (run ++ rest).
Proof.
  unfold binarysort. revert run.
  induction rest as [|x r IH]; intros run; cbn [fold_left].
  - rewrite app_nil_r. reflexivity.
  - rewrite IH, insert_pivot_Permutation. apply Permutation_middle.
Qed.

(** [sorted] returns a rearrangement of its argument. *)
Lemma sorted_Permutation (l : list obj) : Permutation (sorted l) l.
Proof.
  unfold sorted. destruct (count_run l) as [run rest] eqn:E.
  rewrite binarysort_Permutation. eapply count_run_Permutation; eauto.
Qed.





















(** ** The built-in table *)

(** C10: both built-in marker types resolve to [_shtab_compgen_files]. *)
Theorem builtin_kinds_share_generator :
  CHOICE_FUNCTIONS !! "file" = Some "_shtab_compgen_files"
  /\ CHOICE_FUNCTIONS !! "directory" = Some "_shtab_compgen_files".
Proof. split; vm_compute; reflexivity. Qed.

(** ** Reasoning about computations *)

Lemma bind_Return {S A B} (c : Eff S A) (k : A -> Eff S B) (st st' : S) (b : B) :
  bind c k st = (Return b, st') ->
  exists a st1, c st = (Return a, st1) /\ k a st1 = (Return b, st').
Proof.
  unfold bind. destruct (c st) as [[a|e|] st1]; intros H; try discriminate. eauto.
Qed.

(** Loop invariant rule: [I done acc st] holds after the elements [done]. *)
Lemma for_each_Return {S A B} (I : list A -> B -> S -> Prop)
    (body : B -> A -> Eff S B) (l : list A) :
  (forall done x acc st acc' st',
      In x l -> I done acc st -> body acc x st = (Return acc', st') ->
      I (done ++ [x])%list acc' st') ->
  forall acc st acc' st',
    I [] acc st -> for_each l body acc st = (Return acc', st') -> I l acc' st'.
Proof.
  intros Hstep.
  assert (forall l2 done acc st acc' st',
             l = (done ++ l2)%list -> I done acc st ->
             for_each l2 body acc st = (Return acc', st') ->
             I (done ++ l2)%list acc' st') as G.
  { induction l2 as [|x r IH]; intros done acc st acc' st' El Hi H; cbn in H.
    - inversion H; subst. rewrite app_nil_r. exact Hi.
    - apply bind_Return in H as (a & st1 & Hb & H).
      replace (done ++ x :: r)%list with ((done ++ [x]) ++ r)%list
        by (rewrite <- app_assoc; reflexivity).
      eapply IH; [rewrite <- app_assoc; exact El| |exact H].
      eapply Hstep; eauto. rewrite El. apply in_or_app. right. left. reflexivity. }
  intros acc st acc' st' Hi H. apply (G l [] acc st acc' st' eq_refl Hi H).
Qed.

Lemma string_app_cons (c : ascii) (s t : string) :
  String c s ++ t = String c (s ++ t).
Proof. reflexivity. Qed.

Lemma string_app_nil_l (t : string) : "" ++ t = t.
Proof. reflexivity. Qed.

Lemma string_length_app (s t : string) :
  String.length (s ++ t) = (String.length s + String.length t)%nat.
Proof.
  induction s as [|c s IH]; [reflexivity|].
  rewrite string_app_cons. cbn. rewrite IH. reflexivity.
Qed.

Lemma string_app_assoc (s t u : string) : (s ++ t) ++ u = s ++ (t ++ u).
Proof.
  induction s as [|c s IH]; [reflexivity|].
  rewrite !string_app_cons, IH. reflexivity.
Qed.

Lemma string_app_nil_r (s : string) : s ++ "" = s.
Proof.
  induction s as [|c s IH]; [reflexivity|]. rewrite string_app_cons, IH. reflexivity.
Qed.

(** A child's prefix is never the root's. *)
Lemma child_prefix_not_root (root_prefix t u : string) :
  String.eqb ((root_prefix ++ t) ++ "_" ++ u) root_prefix = false.
Proof.
  apply String.eqb_neq. intros E. apply (f_equal String.length) in E.
  rewrite !string_length_app in E. cbn in E. lia.
Qed.

Ltac run_prim H :=
  unfold logger_warning, logger_debug, logger_log, print, root_options_extend,
    get_root_options, ret, raise, out_of_fuel in H;
  inversion H; subst; clear H.

(** ** What [recurse] writes *)

Section TraversalFacts.

Variable root_prefix : string.
Variable tbl : gmap string string.

(** A traversal that returns has extended [root_options] at the root only,
    and has appended exactly the lines [emitted] lists. *)
Lemma recurse_emits (fuel : nat) :
  forall parser prefix st cmds st',
    (exists t, prefix = root_prefix ++ t) ->
    recurse root_prefix tbl fuel parser prefix st = (Return cmds, st') ->
    root_options st'
    = (if String.eqb prefix root_prefix
       then root_options st ++ get_optional_actions parser
       else root_options st)%list
    /\ fd st'
       = (fd st ++ emitted tbl (root_options st') fuel
                     (String.eqb prefix root_prefix) parser prefix)%list.
Proof.
  induction fuel as [|n IH]; intros parser prefix st cmds st' Hext H.
  { cbn in H. discriminate. }
  cbn [recurse] in H.
  apply bind_Return in H as ([] & s1 & Hown & H).
  apply bind_Return in H as (commands & s2 & Hloop & H).
  apply bind_Return in H as ([] & s3 & Hlog & H).
  unfold ret in H. injection H as -> ->.
  assert (root_options st' = root_options s2 /\ fd st' = fd s2) as [E3r E3f].
  { destruct cmds; run_prim Hlog; auto. }
  rewrite E3r, E3f. clear Hlog E3r E3f st'.
  set (RO := (if String.eqb prefix root_prefix
              then root_options st ++ get_optional_actions parser
              else root_options st)%list).
  enough (root_options s2 = RO
          /\ fd s2 = (fd st ++ emitted tbl RO (S n) (String.eqb prefix root_prefix)
                                 parser prefix)%list) as [Er Ef].
  { split; [exact Er | rewrite Er; exact Ef]. }
  assert (root_options s1 = RO
          /\ fd s1 = (fd st ++ (if String.eqb prefix root_prefix then []
                                else own_line RO parser prefix))%list) as [E1r E1f].
  { subst RO. destruct (String.eqb prefix root_prefix).
    - apply bind_Return in Hown as ([] & sa & Ha & Hown).
      apply bind_Return in Hown as (ro & sb & Hb & Hown).
      run_prim Ha. run_prim Hb. run_prim Hown. cbn. rewrite app_nil_r. auto.
    - apply bind_Return in Hown as (ro & sa & Ha & Hown).
      run_prim Ha. unfold own_line.
      destruct (as_strs (node_opts parser (root_options sa))); run_prim Hown.
      cbn. auto. }
  cbn [emitted]. rewrite app_assoc, <- E1f. clear Hown E1f.
  match goal with
  | |- context [flat_map ?F (_get_positional_actions parser)] => set (F0 := F)
  end.
  revert Hloop.
  apply (for_each_Return
           (fun done (_ : list obj) s =>
              root_options s = RO /\ fd s = (fd s1 ++ flat_map F0 done)%list));
    [|cbn; rewrite app_nil_r; auto].
  intros done sub acc sa acc' sb Hin [Ia Ib] Hbody.
  rewrite flat_map_app. cbn [flat_map]. rewrite app_nil_r, app_assoc, <- Ib.
  subst F0. cbn beta. clear Ib.
  destruct (has_choices sub).
  2:{ apply bind_Return in Hbody as ([] & sc & Hc & Hbody).
      run_prim Hc. run_prim Hbody. cbn. rewrite app_nil_r. auto. }
  apply bind_Return in Hbody as ([] & sc & Hc & Hbody).
  assert (root_options sc = RO /\ fd sc = fd sa) as [Ec <-] by (run_prim Hc; auto).
  clear Hc Ia.
  match goal with
  | |- context [flat_map ?G (sorted _)] => set (G0 := G)
  end.
  revert Hbody.
  apply (for_each_Return
           (fun done (_ : list obj) s =>
              root_options s = RO /\ fd s = (fd sc ++ flat_map G0 done)%list));
    [|cbn; rewrite app_nil_r; auto].
  intros done' cmd acc1 sd acc1' se Hin' [Ja Jb] Hcmd.
  rewrite flat_map_app. cbn [flat_map]. rewrite app_nil_r, app_assoc, <- Jb.
  subst G0. cbn beta. clear Jb.
  destruct cmd as [name|c].
  - destruct (getitem (choices sub) name) as [child|]; [|run_prim Hcmd].
    apply bind_Return in Hcmd as (cs & sf & Hrec & Hcmd). run_prim Hcmd.
    destruct Hext as [t ->].
    apply IH in Hrec; [|exists (t ++ "_" ++ replace "-" "_" name);
                         apply string_app_assoc].
    rewrite child_prefix_not_root in Hrec. destruct Hrec as [Hr Hf].
    rewrite Hr, Ja in *. auto.
  - apply bind_Return in Hcmd as ([] & sf & Hf & Hcmd).
    apply bind_Return in Hcmd as ([] & sg & Hg & Hcmd).
    run_prim Hf. run_prim Hcmd.
    destruct (tbl !! type c); run_prim Hg. cbn. auto.
Qed.

End TraversalFacts.

(** ** The scenario *)

(** C3, as stated, fails: the root's commands are not in the order
    [push], [pull]. *)
Lemma scenario_commands_not_in_insertion_order :
  ~ scenario_result [Str "push"; Str "pull"].
Proof.
  intros (lines & H & _). vm_compute in H. discriminate H.
Qed.

(** C3, amended: the root's commands come sorted, [pull] before [push]; the
    root's options are [--verbose]; [push] declares [--force]; [pull]
    declares nothing and binds [_shtab_compgen_files]. *)
Theorem scenario_commands_sorted : scenario_result [Str "pull"; Str "push"].
Proof.
  unfold scenario_result. eexists. split; [vm_compute; reflexivity|].
  cbn. tauto.
Qed.

(** ** Vocabularies *)

Lemma as_strs_In (l : list obj) :
  forall ss, as_strs l = Some ss -> forall s, In s ss -> In (Str s) l.
Proof.
  induction l as [|[s0|c] r IH]; intros ss H s Hin; cbn in H.
  - injection H as <-. destruct Hin.
  - destruct (as_strs r) as [ss'|]; [|discriminate].
    injection H as <-. destruct Hin as [->|Hin]; [left; reflexivity|].
    right. eapply IH; eauto.
  - discriminate.
Qed.

Lemma contains_In (root_options : list string) (s : string) :
  contains root_options (Str s) = true <-> In s root_options.
Proof.
  unfold contains. rewrite existsb_exists. split.
  - intros (x & Hx & E). cbn in E. apply String.eqb_eq in E. subst. exact Hx.
  - intros H. exists s. split; [exact H|]. cbn. apply String.eqb_refl.
Qed.

(** What is left in a node's option list is not in [root_options]. *)
Lemma node_opts_not_root (parser : ArgumentParser) (root_options : list string) (s : string) :
  In (Str s) (node_opts parser root_options) -> ~ In s root_options.
Proof.
  unfold node_opts. rewrite filter_In. intros [_ H] Hin.
  apply contains_In in Hin. rewrite Hin in H. discriminate.
Qed.

(** The option list of a node holds no marker. *)
Lemma node_opts_strs (parser : ArgumentParser) (root_options : list string) :
  Forall is_str (node_opts parser root_options).
Proof.
  unfold node_opts. rewrite List.Forall_forall. intros o Ho.
  apply filter_In in Ho as [Ho _]. apply in_app_or in Ho as [Ho|Ho].
  - apply in_flat_map in Ho as (sub & _ & Ho).
    destruct (has_choices sub); [|destruct Ho].
    apply filter_In in Ho as [_ Ho]. destruct o as [s|c]; [eexists; reflexivity|discriminate].
  - apply in_map_iff in Ho as (s & <- & _). eexists; reflexivity.
Qed.

Section EmittedFacts.

Variable tbl : gmap string string.
Variable ro : list string.

(** A property of lines that holds of a node's own declaration and of the
    marker lines, at every prefix a traversal from [Q] reaches, holds of
    all lines written. *)
Lemma emitted_Forall (Q : string -> Prop) (P : Line -> Prop) (fuel : nat) :
  (forall prefix name, Q prefix -> Q (prefix ++ "_" ++ replace "-" "_" name)) ->
  (forall parser prefix opts,
      Q prefix -> as_strs (node_opts parser ro) = Some opts ->
      P (Line_opts prefix opts)) ->
  (forall prefix fn, Q prefix -> P (Line_compgen prefix fn)) ->
  forall is_root parser prefix,
    Q prefix -> Forall P (emitted tbl ro fuel is_root parser prefix).
Proof.
  intros Hq Hopts Hgen.
  induction fuel as [|n IH]; intros is_root parser prefix HQ; cbn [emitted].
  { constructor. }
  apply Forall_app. split.
  - destruct is_root; [constructor|]. unfold own_line.
    destruct (as_strs _) eqn:E; repeat constructor. eauto.
  - rewrite List.Forall_forall. intros line Hl.
    apply in_flat_map in Hl as (sub & _ & Hl).
    destruct (has_choices sub); [|destruct Hl].
    apply in_flat_map in Hl as (cmd & _ & Hl).
    destruct cmd as [name|c].
    + destruct (getitem _ _) as [child|]; [|destruct Hl].
      specialize (IH false child (prefix ++ "_" ++ replace "-" "_" name)
                    (Hq _ _ HQ)).
      rewrite List.Forall_forall in IH. auto.
    + destruct (tbl !! type c); [|destruct Hl].
      destruct Hl as [<-|[]]. apply Hgen. exact HQ.
Qed.

Lemma emitted_no_root_option (fuel : nat) (is_root : bool)
    (parser : ArgumentParser) (prefix : string) :
  Forall (fun line =>
            match line with
            | Line_opts _ opts => forall o, In o opts -> ~ In o ro
            | Line_compgen _ _ => True
            end) (emitted tbl ro fuel is_root parser prefix).
Proof.
  apply (emitted_Forall (fun _ => True)); auto.
  intros p _ opts _ E o Ho. eapply node_opts_not_root, as_strs_In; eauto.
Qed.

(** Every line is declared under an extension of the prefix the traversal
    started from. *)
Lemma emitted_under_prefix (fuel : nat) (is_root : bool)
    (parser : ArgumentParser) (prefix : string) :
  Forall (fun line => exists t, line_prefix line = prefix ++ t)
         (emitted tbl ro fuel is_root parser prefix).
Proof.
  apply (emitted_Forall (fun p => exists t, p = prefix ++ t)).
  - intros p name [t ->]. eexists. apply string_app_assoc.
  - intros _ p opts H _. exact H.
  - intros p fn H. exact H.
  - exists "". symmetry. apply string_app_nil_r.
Qed.

End EmittedFacts.

(** The result of [print_bash_commands]: the root's option strings as
    global options, and the lines of [emitted] under them. *)
Lemma print_bash_commands_Return (parser : ArgumentParser) (root_prefix : string)
    (cf : option (gmap string string)) (w : World)
    (commands : list obj) (global_options : list string) (lines : list Line) :
  fst (print_bash_commands parser root_prefix cf w)
  = Return (commands, global_options, lines) ->
  exists tbl,
    global_options = get_optional_actions parser
    /\ lines = emitted tbl global_options (S (depth parser)) true parser root_prefix.
Proof.
  unfold print_bash_commands. intros H.
  match type of H with
  | context [recurse _ ?t _ _ _ _] => exists t
  end.
  destruct (recurse _ _ _ _ _ _) as [[cs|e|] st'] eqn:E; try discriminate.
  cbn in H. injection H as -> <- <-.
  apply recurse_emits in E; [|exists ""; symmetry; apply string_app_nil_r].
  rewrite String.eqb_refl in E. cbn in E. destruct E as [E1 E2].
  split; [exact E1|exact E2].
Qed.

(** C6: no option string collected at the root appears in a declaration
    written for another node; the global options are the root's own. *)
Theorem global_options_not_redeclared (parser : ArgumentParser) (root_prefix : string)
    (cf : option (gmap string string)) (w : World)
    (commands : list obj) (global_options : list string) (lines : list Line) :
  fst (print_bash_commands parser root_prefix cf w)
  = Return (commands, global_options, lines) ->
  global_options = get_optional_actions parser
  /\ forall prefix opts, In (Line_opts prefix opts) lines ->
       forall o, In o opts -> ~ In o global_options.
Proof.
  intros H. apply print_bash_commands_Return in H as (tbl & Hg & ->).
  split; [exact Hg|]. intros prefix opts Hin.
  pose proof (emitted_no_root_option tbl global_options (S (depth parser)) true
                parser root_prefix) as F.
  rewrite List.Forall_forall in F. exact (F _ Hin).
Qed.

Lemma global_options_not_redeclared_witness :
  ["--verbose"] = get_optional_actions nested_parser
  /\ forall prefix opts,
       In (Line_opts prefix opts)
          [Line_opts "_shtab_tool_add" ["all"; "-n"];
           Line_opts "_shtab_tool_add_all" ["-q"; "--quiet"];
           Line_compgen "_shtab_tool_add" "_shtab_compgen_files"] ->
       forall o, In o opts -> ~ In o ["--verbose"].
Proof.
  apply (global_options_not_redeclared nested_parser "_shtab_tool" None
           module_loaded [Str "add"]).
  vm_compute. reflexivity.
Defined.

Section CommandsFacts.

Variable root_prefix : string.
Variable tbl : gmap string string.

(** The commands a node returns are the literal entries it met. *)
Lemma recurse_commands_strs (fuel : nat) (parser : ArgumentParser) (prefix : string)
    (st st' : State) (commands : list obj) :
  recurse root_prefix tbl fuel parser prefix st = (Return commands, st') ->
  Forall is_str commands.
Proof.
  destruct fuel as [|n]; intros H; [cbn in H; discriminate|].
  cbn [recurse] in H.
  apply bind_Return in H as ([] & s1 & _ & H).
  apply bind_Return in H as (cs & s2 & Hloop & H).
  apply bind_Return in H as ([] & s3 & _ & H).
  unfold ret in H. injection H as -> ->.
  revert Hloop.
  apply (for_each_Return (fun _ (acc : list obj) (_ : State) => Forall is_str acc));
    [|constructor].
  intros _ sub acc sa acc' sb _ Hacc Hbody.
  destruct (has_choices sub).
  2:{ apply bind_Return in Hbody as ([] & sc & _ & Hbody).
      unfold ret in Hbody. injection Hbody as -> ->. exact Hacc. }
  apply bind_Return in Hbody as ([] & sc & _ & Hbody).
  revert Hbody.
  apply (for_each_Return (fun _ (acc : list obj) (_ : State) => Forall is_str acc));
    [|exact Hacc].
  intros _ cmd acc1 sd acc1' se _ Hacc1 Hcmd.
  destruct cmd as [name|c].
  - destruct (getitem (choices sub) name) as [child|]; [|run_prim Hcmd].
    apply bind_Return in Hcmd as (x & sf & _ & Hcmd).
    unfold ret in Hcmd. injection Hcmd as <- ->.
    apply Forall_app. split; [exact Hacc1|].
    repeat constructor. eexists; reflexivity.
  - apply bind_Return in Hcmd as ([] & sf & _ & Hcmd).
    apply bind_Return in Hcmd as ([] & sg & _ & Hcmd).
    unfold ret in Hcmd. injection Hcmd as <- ->. exact Hacc1.
Qed.

End CommandsFacts.

Lemma as_strs_Some (l : list obj) :
  Forall is_str l -> exists ss, as_strs l = Some ss.
Proof.
  induction 1 as [|o r [s ->] _ [ss IH]]; cbn; [eauto|].
  rewrite IH. eauto.
Qed.

(** C4: at every node the traversal visits, the subcommand names it returns
    and the option list it joins for the node's declaration hold no
    [Choice] instance, so that both pass the type check of [join]. *)
Theorem markers_never_emitted (root_prefix : string) (tbl : gmap string string)
    (fuel : nat) (parser : ArgumentParser) (prefix : string)
    (st st' : State) (commands : list obj) :
  recurse root_prefix tbl fuel parser prefix st = (Return commands, st') ->
  (Forall is_str commands /\ exists names, as_strs commands = Some names)
  /\ (Forall is_str (node_opts parser (root_options st))
      /\ exists opts, as_strs (node_opts parser (root_options st)) = Some opts).
Proof.
  intros H.
  assert (Forall is_str commands) as Hc by (eapply recurse_commands_strs; eauto).
  pose proof (node_opts_strs parser (root_options st)) as Ho.
  repeat split; auto using as_strs_Some.
Qed.

Lemma markers_never_emitted_witness :
  (Forall is_str [Str "all"] /\ exists names, as_strs [Str "all"] = Some names)
  /\ (Forall is_str (node_opts mixed_parser ["--verbose"])
      /\ exists opts, as_strs (node_opts mixed_parser ["--verbose"]) = Some opts).
Proof.
  apply (markers_never_emitted "_shtab_tool" CHOICE_FUNCTIONS 2 mixed_parser
           "_shtab_tool_add" (mkState ["--verbose"] [] [])
           (mkState ["--verbose"]
              [Line_opts "_shtab_tool_add" ["all"; "-n"];
               Line_opts "_shtab_tool_add_all" ["-q"; "--quiet"];
               Line_compgen "_shtab_tool_add" "_shtab_compgen_files"]
              [mkLog WARNING "choices:{}:{}"
                 [AStr "_shtab_tool_add"; AList [Str "all"; FILE_required]];
               mkLog WARNING "Choice.{}:{}:{}"
                 [AStr "file"; AStr "_shtab_tool_add"; AStr "target"];
               mkLog DEBUG "subcommands:{}:{}"
                 [AStr "_shtab_tool_add"; AList [Str "all"]]])).
  vm_compute. reflexivity.
Defined.

(** ** The script *)

(** The text [print_bash] returns. *)
Lemma print_bash_Return (parser : ArgumentParser) (root_prefix preamble : option string)
    (cf : option (gmap string string)) (w : World) (out : string) :
  fst (print_bash parser root_prefix preamble cf w) = Return out ->
  exists commands cs global_options lines,
    fst (print_bash_commands parser (namespace_prefix parser root_prefix) cf w)
    = Return (commands, global_options, lines)
    /\ as_strs commands = Some cs
    /\ out = header (namespace_prefix parser root_prefix) (join " " cs)
               (join " " (get_optional_actions parser)) (join " " global_options)
               (getvalue lines)
             ++ preamble_block preamble
             ++ replace "{root_prefix}" (namespace_prefix parser root_prefix)
                  dispatcher_template.
Proof.
  unfold print_bash, bind.
  destruct (print_bash_commands _ _ _ _) as [[[[c g] l]|e|] w1]; cbn;
    try discriminate.
  destruct (as_strs c) as [cs|] eqn:E; cbn; [|discriminate].
  intros H. injection H as <-. exists c, cs, g, l. auto.
Qed.

(** Without a prefix from the caller, the root declarations, every line of
    the traversal and the dispatcher are written under [_shtab_] followed by
    the root's [prog], whatever characters [prog] has. *)
Lemma default_prefix_is_prog (parser : ArgumentParser) (preamble : option string)
    (cf : option (gmap string string)) (w : World) (out : string) :
  fst (print_bash parser None preamble cf w) = Return out ->
  namespace_prefix parser None = "_shtab_" ++ prog parser
  /\ exists commands options global_options lines,
       Forall (fun line => exists t, line_prefix line = ("_shtab_" ++ prog parser) ++ t)
              lines
       /\ out = header ("_shtab_" ++ prog parser) commands options global_options
                  (getvalue lines)
                ++ preamble_block preamble
                ++ replace "{root_prefix}" ("_shtab_" ++ prog parser)
                     dispatcher_template.
Proof.
  intros H. split; [reflexivity|].
  apply print_bash_Return in H as (commands & cs & g & lines & Hc & _ & ->).
  apply print_bash_commands_Return in Hc as (tbl & _ & ->).
  eexists _, _, _, _. split; [|reflexivity].
  apply emitted_under_prefix.
Qed.

Lemma text_ends_with_refl (t : string) : text_ends_with t t.
Proof. exists "". reflexivity. Qed.

Lemma text_ends_with_cons (c : ascii) (s t : string) :
  text_ends_with s t -> text_ends_with (String c s) t.
Proof. intros [pre ->]. exists (String c pre). reflexivity. Qed.

Lemma text_ends_with_app (u s t : string) :
  text_ends_with s t -> text_ends_with (u ++ s) t.
Proof. intros [pre ->]. exists (u ++ pre). symmetry. apply string_app_assoc. Qed.

(** Whatever the prefix, the dispatcher text ends with a registration for
    [dvc]. *)
Lemma dispatcher_registers_dvc (root_prefix : string) :
  text_ends_with (replace "{root_prefix}" root_prefix dispatcher_template)
                 ("complete -o nospace -F " ++ root_prefix ++ " dvc").
Proof.
  set (t := dispatcher_template). vm_compute in t. subst t.
  unfold replace. cbv -[String.append text_ends_with].
  repeat first [ apply text_ends_with_refl
               | apply text_ends_with_cons
               | apply text_ends_with_app ].
Qed.

(** Every script [complete] returns ends with the registration of the
    dispatcher for [dvc]. *)
Lemma complete_registers_dvc (parser : ArgumentParser) (shell : string) (kw : kwargs)
    (w : World) (out : string) :
  fst (complete parser shell kw w) = Return out ->
  text_ends_with out
    ("complete -o nospace -F " ++ namespace_prefix parser (kw_root_prefix kw) ++ " dvc").
Proof.
  unfold complete. destruct (String.eqb shell "bash"); [|discriminate].
  intros H. apply print_bash_Return in H as (c & cs & g & l & _ & _ & ->).
  apply text_ends_with_app, text_ends_with_app, dispatcher_registers_dvc.
Qed.

(** C2 at the parser of a program called [git]: the script ends with a
    registration for [dvc], whatever the program is called. *)
Theorem registration_names_dvc :
  exists out,
    fst (complete git_parser "bash" no_kwargs module_loaded) = Return out
    /\ endswith out "complete -o nospace -F _shtab_git dvc" = true
    /\ endswith out "complete -o nospace -F _shtab_git git" = false.
Proof.
  eexists. split; [vm_compute; reflexivity|].
  split; vm_compute; reflexivity.
Qed.

(** C9 at the parser of a program called [my-tool] with a subcommand
    [dry-run], no prefix given: the hyphen of the subcommand name is replaced
    in the identifiers, the hyphen of the program name is not. The default
    prefix is [_shtab_my-tool], not [_shtab_my_tool], and the script declares
    [_shtab_my-tool_commands_], [_shtab_my-tool_dry_run] and registers the
    function [_shtab_my-tool]. *)
Theorem root_name_keeps_hyphen :
  namespace_prefix my_tool_parser None = "_shtab_my-tool"
  /\ namespace_prefix my_tool_parser None
     <> "_shtab_" ++ replace "-" "_" (prog my_tool_parser)
  /\ fst (print_bash_commands my_tool_parser (namespace_prefix my_tool_parser None)
            None module_loaded)
     = Return ([Str "dry-run"], ["--verbose"],
               [Line_opts "_shtab_my-tool_dry_run" ["-n"]])
  /\ exists out,
       fst (complete my_tool_parser "bash" no_kwargs module_loaded) = Return out
       /\ String.prefix
            (lines ["#!/usr/bin/env bash";
                    "# AUTOMATCALLY GENERATED by `shtab`";
                    "";
                    "_shtab_my-tool_commands_='dry-run'";
                    "_shtab_my-tool_options_='--verbose'";
                    "_shtab_my-tool_global_options_='--verbose'";
                    "";
                    "_shtab_my-tool_dry_run='-n'"])
            out = true
       /\ endswith out "complete -o nospace -F _shtab_my-tool dvc" = true.
Proof.
  split; [reflexivity|].
  split; [vm_compute; discriminate|].
  split; [vm_compute; reflexivity|].
  eexists. split; [vm_compute; reflexivity|].
  split; vm_compute; reflexivity.
Qed.

(** ** Unknown marker types *)

(** A loop that returns has returned from the body at every element. *)
Lemma for_each_Return_each {S A B} (body : B -> A -> Eff S B) (l : list A) :
  forall acc st acc' st',
    for_each l body acc st = (Return acc', st') ->
    forall x, In x l ->
      exists acc1 st1 acc2 st2, body acc1 x st1 = (Return acc2, st2).
Proof.
  induction l as [|y r IH]; intros acc st acc' st' H x Hx; [destruct Hx|].
  cbn in H. apply bind_Return in H as (a & s1 & Hb & H).
  destruct Hx as [->|Hx]; [eauto 6|]. eapply IH; eauto.
Qed.

(** A loop runs out of fuel only where its body does. *)
Lemma for_each_fuel {S A B} (body : B -> A -> Eff S B) (l : list A) :
  (forall x acc st, In x l -> fst (body acc x st) <> OutOfFuel) ->
  forall acc st, fst (for_each l body acc st) <> OutOfFuel.
Proof.
  induction l as [|y r IH]; intros Hb acc st; cbn; [discriminate|].
  unfold bind. pose proof (Hb y acc st (or_introl eq_refl)) as Hy.
  destruct (body acc y st) as [[a|e|] s1]; cbn in *; [|discriminate|congruence].
  apply IH. intros x acc1 st1 Hx. apply Hb. right. exact Hx.
Qed.

Lemma bind_fuel {S A B} (c : Eff S A) (k : A -> Eff S B) (st : S) :
  fst (c st) <> OutOfFuel ->
  (forall a s, fst (k a s) <> OutOfFuel) ->
  fst (bind c k st) <> OutOfFuel.
Proof.
  intros Hc Hk. unfold bind.
  destruct (c st) as [[a|e|] s1]; cbn in *; [apply Hk|discriminate|congruence].
Qed.

Lemma getitem_In (cs : list (obj * option ArgumentParser)) (name : string)
    (child : ArgumentParser) :
  getitem cs name = Some child -> exists k, In (Str k, Some child) cs.
Proof.
  induction cs as [|[[k|c] v] r IH]; cbn; intros H; [discriminate| |].
  - destruct (String.eqb k name).
    + subst v. exists k. left. reflexivity.
    + destruct (IH H) as [k' Hk]. exists k'. right. exact Hk.
  - destruct (IH H) as [k' Hk]. exists k'. right. exact Hk.
Qed.

Lemma list_max_In (f : nat) (l : list nat) : In f l -> (f <= list_max l)%nat.
Proof.
  intros H. pose proof (proj1 (list_max_le l (list_max l)) (Nat.le_refl _)) as F.
  rewrite List.Forall_forall in F. exact (F _ H).
Qed.

(** A sub-parser is less deep than the parser it hangs under. *)
Lemma depth_child (parser child : ArgumentParser) (sub : PositionalAction) (name : string) :
  In sub (_get_positional_actions parser) ->
  getitem (choices sub) name = Some child ->
  (depth child < depth parser)%nat.
Proof.
  intros Hsub Hget. apply getitem_In in Hget as [k Hk].
  destruct parser as [pr opt pos]. cbn [depth _get_positional_actions] in *.
  apply Nat.lt_succ_r.
  etransitivity; [|apply list_max_In, in_map_iff; exists sub; split; [reflexivity|exact Hsub]].
  apply list_max_In, in_map_iff. exists (Str k, Some child). split; [reflexivity|exact Hk].
Qed.

Section Unknown.

Variable root_prefix : string.
Variable tbl : gmap string string.

(** With fuel for its depth, the traversal of a tree does not run out. *)
Lemma recurse_fuel (fuel : nat) :
  forall parser prefix st,
    (depth parser <= fuel)%nat ->
    fst (recurse root_prefix tbl fuel parser prefix st) <> OutOfFuel.
Proof.
  induction fuel as [|n IH]; intros parser prefix st Hd.
  { destruct parser; cbn in Hd. lia. }
  cbn [recurse]. apply bind_fuel.
  { destruct (String.eqb prefix root_prefix).
    - repeat (apply bind_fuel; [|intros]); cbn; discriminate.
    - apply bind_fuel; [cbn; discriminate|intros ro s].
      destruct (as_strs _); cbn; discriminate. }
  intros [] s1. apply bind_fuel.
  2:{ intros cs s2. apply bind_fuel; [|intros; cbn; discriminate].
      destruct cs; cbn; discriminate. }
  apply for_each_fuel. intros sub acc sa Hsub.
  destruct (has_choices sub).
  2:{ apply bind_fuel; [|intros]; cbn; discriminate. }
  apply bind_fuel; [cbn; discriminate|intros [] sb].
  apply for_each_fuel. intros cmd acc1 sc _.
  destruct cmd as [name|c].
  - destruct (getitem (choices sub) name) as [child|] eqn:G; [|cbn; discriminate].
    apply bind_fuel; [|intros; cbn; discriminate].
    apply IH. pose proof (depth_child parser child sub name Hsub G). lia.
  - apply bind_fuel; [cbn; discriminate|intros [] sd].
    apply bind_fuel; [|intros; cbn; discriminate].
    destruct (tbl !! type c); cbn; discriminate.
Qed.

(** The traversal of a tree with an unknown marker does not return. *)
Lemma recurse_unknown (parser : ArgumentParser) :
  has_unknown_marker tbl parser ->
  forall fuel prefix st cmds st',
    recurse root_prefix tbl fuel parser prefix st <> (Return cmds, st').
Proof.
  induction 1 as [parser sub c Hsub Hc Hnone | parser sub name child Hsub Hn Hget Hu IH];
    intros fuel prefix st cmds st' H;
    (destruct fuel as [|n]; [cbn in H; discriminate|]);
    cbn [recurse] in H;
    apply bind_Return in H as ([] & s1 & _ & H);
    apply bind_Return in H as (cs & s2 & Hloop & _);
    destruct (for_each_Return_each _ _ _ _ _ _ Hloop sub Hsub)
      as (acc1 & sa & acc2 & sb & Hbody);
    (destruct (has_choices sub) eqn:Hh;
     [|unfold has_choices in Hh; destruct (choices sub); [destruct Hc || destruct Hn|discriminate]]);
    apply bind_Return in Hbody as ([] & sc & _ & Hbody).
  - assert (In (Marker c) (sorted (iter (choices sub)))) as Hin.
    { eapply Permutation_in; [symmetry; apply sorted_Permutation|exact Hc]. }
    destruct (for_each_Return_each _ _ _ _ _ _ Hbody _ Hin)
      as (a1 & sd & a2 & se & Hcmd).
    apply bind_Return in Hcmd as ([] & sf & _ & Hcmd).
    apply bind_Return in Hcmd as ([] & sg & Hg & _).
    rewrite Hnone in Hg. discriminate.
  - assert (In (Str name) (sorted (iter (choices sub)))) as Hin.
    { eapply Permutation_in; [symmetry; apply sorted_Permutation|exact Hn]. }
    destruct (for_each_Return_each _ _ _ _ _ _ Hbody _ Hin)
      as (a1 & sd & a2 & se & Hcmd).
    rewrite Hget in Hcmd.
    apply bind_Return in Hcmd as (x & sf & Hrec & _).
    exact (IH _ _ _ _ _ Hrec).
Qed.

End Unknown.

(** [complete] always comes to an end: it returns a script or raises. *)
Lemma complete_total (parser : ArgumentParser) (shell : string) (kw : kwargs)
    (w : World) :
  fst (complete parser shell kw w) <> OutOfFuel.
Proof.
  unfold complete. destruct (String.eqb shell "bash"); [|discriminate].
  unfold print_bash, bind at 1, print_bash_commands.
  pose proof (recurse_fuel (namespace_prefix parser (kw_root_prefix kw))
                (merged_table (module_CHOICE_FUNCTIONS w) (kw_choice_functions kw))
                (S (depth parser)) parser
                (namespace_prefix parser (kw_root_prefix kw))
                (mkState [] [] (logged w)) (Nat.le_succ_diag_r _)) as Hfuel.
  destruct (recurse _ _ _ _ _ _) as [[cs|e|] st']; cbn in *;
    [|discriminate|congruence].
  unfold bind. cbn. destruct (as_strs cs); discriminate.
Qed.

(** C5: a tree with a marker whose type is not in the merged table makes
    [complete] raise; no script is returned. *)
Theorem unknown_marker_is_fatal (parser : ArgumentParser) (shell : string)
    (kw : kwargs) (w : World) :
  has_unknown_marker
    (merged_table (module_CHOICE_FUNCTIONS w) (kw_choice_functions kw)) parser ->
  exists e, fst (complete parser shell kw w) = Raise e.
Proof.
  intros Hu. unfold complete.
  destruct (String.eqb shell "bash"); [|exists NotImplementedError; reflexivity].
  unfold print_bash, bind at 1, print_bash_commands.
  pose proof (recurse_unknown (namespace_prefix parser (kw_root_prefix kw)) _ parser Hu
                (S (depth parser)) (namespace_prefix parser (kw_root_prefix kw))
                (mkState [] [] (logged w))) as Hret.
  pose proof (recurse_fuel (namespace_prefix parser (kw_root_prefix kw))
                (merged_table (module_CHOICE_FUNCTIONS w) (kw_choice_functions kw))
                (S (depth parser)) parser
                (namespace_prefix parser (kw_root_prefix kw))
                (mkState [] [] (logged w)) (Nat.le_succ_diag_r _)) as Hfuel.
  destruct (recurse _ _ _ _ _ _) as [[cs|e|] st'].
  - exfalso. eapply Hret. reflexivity.
  - exists e. reflexivity.
  - exfalso. apply Hfuel. reflexivity.
Qed.

Lemma unknown_marker_is_fatal_witness :
  exists e, fst (complete url_parser "bash" no_kwargs module_loaded) = Raise e.
Proof.
  apply (unknown_marker_is_fatal url_parser "bash" no_kwargs module_loaded).
  eapply unknown_below with (name := "fetch") (child := fetch_parser);
    [left; reflexivity | left; reflexivity | reflexivity |].
  eapply unknown_here with (c := mkChoice "url" false);
    [left; reflexivity | left; reflexivity | vm_compute; reflexivity].
Defined.

Example url_scenario :
  fst (complete url_parser "bash" no_kwargs module_loaded) = Raise (KeyError "url").
Proof. vm_compute. reflexivity. Qed.

(** ** Repeated generation *)

Lemma log_blind_ret {A} (a : A) : log_blind (ret a).
Proof. intros s1 s2 H. cbn. auto. Qed.

Lemma log_blind_raise {A} (e : Exception) : log_blind (@raise State A e).
Proof. intros s1 s2 H. cbn. auto. Qed.

Lemma log_blind_out_of_fuel {A} : log_blind (@out_of_fuel State A).
Proof. intros s1 s2 H. cbn. auto. Qed.

Lemma log_blind_log (lvl : Level) (m : string) (a : list LogArg) :
  log_blind (logger_log lvl m a).
Proof. intros s1 s2 H. cbn. auto. Qed.

Lemma log_blind_print (line : Line) : log_blind (print line).
Proof. intros s1 s2 [H1 H2]. cbn. unfold same_data. cbn. rewrite H1, H2. auto. Qed.

Lemma log_blind_extend (l : list string) : log_blind (root_options_extend l).
Proof. intros s1 s2 [H1 H2]. cbn. unfold same_data. cbn. rewrite H1, H2. auto. Qed.

Lemma log_blind_bind {A B} (c : M A) (k : A -> M B) :
  log_blind c -> (forall a, log_blind (k a)) -> log_blind (bind c k).
Proof.
  intros Hc Hk s1 s2 H. unfold bind.
  destruct (Hc s1 s2 H) as [Ho Hs].
  destruct (c s1) as [[a1|e1|] t1], (c s2) as [[a2|e2|] t2]; cbn in *;
    try discriminate;
    [injection Ho as ->; apply Hk; exact Hs
    |injection Ho as ->; split; [reflexivity|assumption]
    |split; [reflexivity|assumption]].
Qed.

(** A computation that reads [root_options] and goes on. *)
Lemma log_blind_get {B} (k : list string -> M B) :
  (forall ro, log_blind (k ro)) -> log_blind (bind get_root_options k).
Proof.
  intros Hk s1 s2 H. unfold bind, get_root_options.
  destruct H as [H1 H2]. rewrite H1. apply Hk. split; assumption.
Qed.

Lemma log_blind_for_each {A B} (body : B -> A -> M B) (l : list A) :
  (forall acc x, In x l -> log_blind (body acc x)) ->
  forall acc, log_blind (for_each l body acc).
Proof.
  induction l as [|x r IH]; intros Hb acc; cbn [for_each].
  - apply log_blind_ret.
  - apply log_blind_bind; [apply Hb; left; reflexivity|].
    intros a. apply IH. intros acc1 y Hy. apply Hb. right. exact Hy.
Qed.

Lemma recurse_log_blind (root_prefix : string) (tbl : gmap string string) (fuel : nat) :
  forall parser prefix, log_blind (recurse root_prefix tbl fuel parser prefix).
Proof.
  induction fuel as [|n IH]; intros parser prefix; cbn [recurse].
  { apply log_blind_out_of_fuel. }
  apply log_blind_bind.
  { destruct (String.eqb prefix root_prefix).
    - apply log_blind_bind; [apply log_blind_extend|intros _].
      apply log_blind_get. intros ro. apply log_blind_log.
    - apply log_blind_get. intros ro.
      destruct (as_strs _); [apply log_blind_print|apply log_blind_raise]. }
  intros _. apply log_blind_bind.
  2:{ intros cs. apply log_blind_bind; [|intros _; apply log_blind_ret].
      destruct cs; [apply log_blind_ret|apply log_blind_log]. }
  apply log_blind_for_each. intros acc sub _.
  destruct (has_choices sub).
  2:{ apply log_blind_bind; [apply log_blind_log|intros _; apply log_blind_ret]. }
  apply log_blind_bind; [apply log_blind_log|intros _].
  apply log_blind_for_each. intros acc1 cmd _.
  destruct cmd as [name|c].
  - destruct (getitem (choices sub) name) as [child|]; [|apply log_blind_raise].
    apply log_blind_bind; [apply IH|intros _; apply log_blind_ret].
  - apply log_blind_bind; [apply log_blind_log|intros _].
    apply log_blind_bind; [|intros _; apply log_blind_ret].
    destruct (tbl !! type c); [apply log_blind_print|apply log_blind_raise].
Qed.

(** [complete] leaves the module's table as it found it. *)
Lemma complete_keeps_table (parser : ArgumentParser) (shell : string) (kw : kwargs)
    (w : World) :
  module_CHOICE_FUNCTIONS (snd (complete parser shell kw w)) = module_CHOICE_FUNCTIONS w.
Proof.
  unfold complete. destruct (String.eqb shell "bash"); [|reflexivity].
  unfold print_bash, bind, print_bash_commands.
  destruct (recurse _ _ _ _ _ _) as [[cs|e|] st']; cbn; try reflexivity.
  destruct (as_strs cs); reflexivity.
Qed.

(** The outcome of [complete] depends on the world through the table only. *)
Lemma complete_log_blind (parser : ArgumentParser) (shell : string) (kw : kwargs)
    (w1 w2 : World) :
  module_CHOICE_FUNCTIONS w1 = module_CHOICE_FUNCTIONS w2 ->
  fst (complete parser shell kw w1) = fst (complete parser shell kw w2).
Proof.
  intros Ht. unfold complete. destruct (String.eqb shell "bash"); [|reflexivity].
  unfold print_bash, bind, print_bash_commands. rewrite Ht.
  destruct (recurse_log_blind (namespace_prefix parser (kw_root_prefix kw))
              (merged_table (module_CHOICE_FUNCTIONS w2) (kw_choice_functions kw))
              (S (depth parser)) parser (namespace_prefix parser (kw_root_prefix kw))
              (mkState [] [] (logged w1)) (mkState [] [] (logged w2)))
    as [Ho [Hr Hf]]; [split; reflexivity|].
  destruct (recurse _ _ _ _ _ (mkState [] [] (logged w1))) as [[c1|e1|] t1],
           (recurse _ _ _ _ _ (mkState [] [] (logged w2))) as [[c2|e2|] t2];
    cbn in *; try discriminate; try reflexivity.
  - injection Ho as ->. rewrite Hr, Hf. destruct (as_strs c2); reflexivity.
  - injection Ho as ->. reflexivity.
Qed.

(** C8: a second call of [complete] with the same arguments, made in the
    world the first call has left, has the outcome of the first: the same
    script text, or the same exception. *)
Theorem complete_deterministic (parser : ArgumentParser) (shell : string)
    (kw : kwargs) (w : World) :
  fst (complete parser shell kw (snd (complete parser shell kw w)))
  = fst (complete parser shell kw w).
Proof. apply complete_log_blind, complete_keeps_table. Qed.

(** ** Node identifiers *)

Lemma node_ids_app (a b : list Line) :
  node_ids (a ++ b) = (node_ids a ++ node_ids b)%list.
Proof. apply flat_map_app. Qed.

Lemma node_ids_flat_map {A} (F : A -> list Line) (l : list A) :
  node_ids (flat_map F l) = flat_map (fun x => node_ids (F x)) l.
Proof.
  induction l as [|x r IH]; cbn [flat_map]; [reflexivity|].
  rewrite node_ids_app, IH. reflexivity.
Qed.

Lemma In_node_ids (id : string) (lines : list Line) :
  In id (node_ids lines) -> exists opts, In (Line_opts id opts) lines.
Proof.
  unfold node_ids. rewrite in_flat_map. intros (line & Hl & Hid).
  destruct line as [p opts|p fn]; cbn in *; [|destruct Hid].
  destruct Hid as [<-|[]]. exists opts. exact Hl.
Qed.

Lemma NoDup_flat_map_In {A B} (f : A -> list B) (l : list A) (x : A) :
  NoDup (flat_map f l) -> In x l -> NoDup (f x).
Proof.
  induction l as [|y r IH]; intros Hn Hx; [destruct Hx|].
  cbn in Hn. apply NoDup_app in Hn as (H1 & _ & H2).
  destruct Hx as [->|Hx]; [exact H1|auto].
Qed.

(** Lists produced under distinct keys, each element showing its key, make
    a list without repetition. *)
Lemma NoDup_flat_map_keyed {A B K} (ks : A -> list K) (g : A -> list B)
    (R : K -> B -> Prop) (l : list A) :
  NoDup (flat_map ks l) ->
  (forall x, In x l -> NoDup (g x)) ->
  (forall x b, In x l -> In b (g x) -> exists k, In k (ks x) /\ R k b) ->
  (forall k k' b, R k b -> R k' b -> k = k') ->
  NoDup (flat_map g l).
Proof.
  intros Hks Hg Hkey Hinj.
  induction l as [|x r IH]; cbn [flat_map] in *; [constructor|].
  apply NoDup_app in Hks as (Hk1 & Hk2 & Hk3).
  apply NoDup_app. split; [apply Hg; left; reflexivity|]. split.
  - intros b Hb Hb'. apply list_elem_of_In in Hb, Hb'.
    apply in_flat_map in Hb' as (y & Hy & Hb').
    destruct (Hkey x b (or_introl eq_refl) Hb) as (k & Hk & HR).
    destruct (Hkey y b (or_intror Hy) Hb') as (k' & Hk' & HR').
    assert (k = k') as <- by (eapply Hinj; eauto).
    apply (Hk2 k); apply list_elem_of_In; [exact Hk|].
    apply in_flat_map. exists y. split; assumption.
  - apply IH; [exact Hk3 | intros y Hy; apply Hg; right; exact Hy|].
    intros y b Hy. apply Hkey. right. exact Hy.
Qed.

Lemma plain_replace (name : string) :
  plain name = true -> replace "-" "_" name = name.
Proof.
  unfold replace. induction name as [|c r IH]; [reflexivity|].
  cbn [plain replace_from String.prefix]. intros H.
  apply andb_prop in H as [H Hr]. apply andb_prop in H as [Hc _].
  destruct (ascii_dec "-" c) as [<-|_]; [discriminate|].
  rewrite IH by exact Hr. reflexivity.
Qed.

Lemma plain_app_inj (k : string) :
  forall k' t t',
    plain k = true -> plain k' = true -> tail_ok t -> tail_ok t' ->
    k ++ t = k' ++ t' -> k = k'.
Proof.
  assert (forall c r t t', plain (String c r) = true -> tail_ok t ->
                           t = String c r ++ t' -> False) as Hne.
  { intros c r t t' Hp [->|[u ->]] E; [discriminate|].
    rewrite string_app_cons in E. injection E as <- _. discriminate. }
  induction k as [|c r IH]; intros [|c' r'] t t' Hk Hk' Ht Ht' E.
  - reflexivity.
  - rewrite string_app_nil_l in E. exfalso. exact (Hne c' r' t t' Hk' Ht E).
  - rewrite string_app_nil_l in E. exfalso. exact (Hne c r t' t Hk Ht' (eq_sym E)).
  - rewrite !string_app_cons in E. injection E as -> E. f_equal.
    cbn [plain] in Hk, Hk'.
    apply andb_prop in Hk as [_ Hk]. apply andb_prop in Hk' as [_ Hk'].
    exact (IH r' t t' Hk Hk' Ht Ht' E).
Qed.

Section IdentifierFacts.

Variable tbl : gmap string string.
Variable ro : list string.

(** Below a node, every identifier is the node's prefix, followed by
    nothing or by an underscore and more. *)
Lemma emitted_ids_under (fuel : nat) (is_root : bool) (parser : ArgumentParser)
    (prefix : string) :
  Forall (fun line => exists t, tail_ok t /\ line_prefix line = prefix ++ t)
         (emitted tbl ro fuel is_root parser prefix).
Proof.
  apply (emitted_Forall tbl ro (fun p => exists t, tail_ok t /\ p = prefix ++ t)).
  - intros p name (t & Ht & ->). exists (t ++ "_" ++ replace "-" "_" name).
    split; [|apply string_app_assoc].
    right. destruct Ht as [->|[u ->]]; [eexists; reflexivity|].
    exists (u ++ "_" ++ replace "-" "_" name). apply string_app_assoc.
  - intros _ p opts H _. exact H.
  - intros p fn H. exact H.
  - exists "". split; [left; reflexivity|]. symmetry. apply string_app_nil_r.
Qed.

Lemma shows_inj (prefix k k' id : string) :
  shows prefix k id -> shows prefix k' id -> k = k'.
Proof.
  intros (Hk & t & Ht & ->) (Hk' & t' & Ht' & E).
  apply String.app_inj in E. apply (String.app_inj "_") in E.
  exact (plain_app_inj k k' t t' Hk Hk' Ht Ht' E).
Qed.

Lemma below_shows (fuel : nat) (prefix : string) (sub : PositionalAction)
    (cmd : obj) (id : string) :
  Forall (fun name => plain name = true) (literal cmd) ->
  In id (node_ids (below tbl ro fuel prefix sub cmd)) ->
  exists name, In name (literal cmd) /\ shows prefix name id.
Proof.
  intros Hp Hid. apply In_node_ids in Hid as (opts & Hl).
  destruct cmd as [name|c]; cbn [below] in Hl.
  - destruct (getitem (choices sub) name) as [child|]; [|destruct Hl].
    exists name. split; [left; reflexivity|].
    apply Forall_inv in Hp.
    pose proof (emitted_ids_under fuel false child
                  (prefix ++ "_" ++ replace "-" "_" name)) as F.
    rewrite List.Forall_forall in F. destruct (F _ Hl) as (t & Ht & E).
    cbn [line_prefix] in E. subst id.
    split; [exact Hp|]. exists t. split; [exact Ht|].
    rewrite (plain_replace name Hp), !string_app_assoc. reflexivity.
  - destruct (tbl !! type c); [|destruct Hl].
    destruct Hl as [E|[]]. discriminate E.
Qed.

(** In a well-named tree no identifier is written twice. *)
Lemma emitted_ids_NoDup (fuel : nat) :
  forall is_root parser prefix,
    well_named parser ->
    NoDup (node_ids (emitted tbl ro fuel is_root parser prefix)).
Proof.
  induction fuel as [|n IH]; intros is_root parser prefix Hw; cbn [emitted].
  { constructor. }
  destruct Hw as [parser Hnd Hpl Hch].
  assert (forall sub cmd, In sub (_get_positional_actions parser) ->
            In cmd (sorted (iter (choices sub))) ->
            Forall (fun name => plain name = true) (literal cmd)
            /\ incl (literal cmd) (flat_map literal (iter (choices sub)))) as Hcmd.
  { intros sub cmd Hsub Hin.
    assert (incl (literal cmd) (flat_map literal (iter (choices sub)))) as Hi.
    { intros k Hk. apply in_flat_map. exists cmd. split; [|exact Hk].
      eapply Permutation_in; [apply sorted_Permutation|exact Hin]. }
    split; [|exact Hi].
    rewrite List.Forall_forall in Hpl |- *. intros k Hk. apply Hpl.
    apply in_flat_map. exists sub. split; [exact Hsub|]. apply Hi, Hk. }
  assert (forall sub id, In sub (_get_positional_actions parser) ->
            In id (node_ids (if has_choices sub
                             then flat_map (below tbl ro n prefix sub) (sorted (iter (choices sub)))
                             else [])) ->
            exists name, In name (flat_map literal (iter (choices sub)))
                         /\ shows prefix name id) as Hkey.
  { intros sub id Hsub Hid.
    destruct (has_choices sub); [|destruct Hid].
    rewrite node_ids_flat_map in Hid. apply in_flat_map in Hid as (cmd & Hin & Hid).
    destruct (Hcmd sub cmd Hsub Hin) as [Hp Hi].
    destruct (below_shows n prefix sub cmd id Hp Hid) as (name & Hn & Hs).
    exists name. split; [apply Hi, Hn|exact Hs]. }
  rewrite node_ids_app, node_ids_flat_map.
  change (NoDup (node_ids (if is_root then [] else own_line ro parser prefix) ++
                 flat_map (fun sub => node_ids (if has_choices sub
                     then flat_map (below tbl ro n prefix sub) (sorted (iter (choices sub)))
                     else [])) (_get_positional_actions parser))).
  apply NoDup_app. split; [|split].
  - destruct is_root; [constructor|]. unfold own_line.
    destruct (as_strs _); repeat constructor. apply not_elem_of_nil.
  - intros id Hown Hloop. apply list_elem_of_In in Hown, Hloop.
    apply in_flat_map in Hloop as (sub & Hsub & Hid).
    destruct (Hkey sub id Hsub Hid) as (name & _ & _ & t & _ & E).
    assert (id = prefix) as ->.
    { destruct is_root; [destruct Hown|]. unfold own_line in Hown.
      destruct (as_strs _); [|destruct Hown]. destruct Hown as [<-|[]]. reflexivity. }
    apply (f_equal String.length) in E. rewrite !string_length_app in E.
    cbn in E. lia.
  - apply (NoDup_flat_map_keyed (fun sub => flat_map literal (iter (choices sub))) _
             (shows prefix)); [exact Hnd| |exact Hkey|apply shows_inj].
    intros sub Hsub. destruct (has_choices sub); [|constructor].
    rewrite node_ids_flat_map.
    apply (NoDup_flat_map_keyed literal _ (shows prefix)).
    + rewrite (Permutation_flat_map literal (sorted_Permutation (iter (choices sub)))).
      exact (NoDup_flat_map_In (fun sub => flat_map literal (iter (choices sub)))
               _ sub Hnd Hsub).
    + intros cmd Hin. destruct cmd as [name|c]; cbn [below].
      * destruct (getitem (choices sub) name) as [child|] eqn:G; [|constructor].
        apply IH. eapply Hch; eauto.
      * destruct (tbl !! type c); constructor.
    + intros cmd id Hin Hid.
      apply (below_shows n prefix sub cmd id); [|exact Hid].
      apply (Hcmd sub cmd Hsub Hin).
    + apply shows_inj.
Qed.

End IdentifierFacts.

(** C7, as stated, fails: the siblings [foo-bar] and [foo_bar] are declared
    under one identifier. *)
Lemma sanitized_siblings_collide :
  ~ (forall parser root_prefix cf w commands global_options lines,
        fst (print_bash_commands parser root_prefix cf w)
        = Return (commands, global_options, lines) ->
        NoDup (node_ids lines)).
Proof.
  intros H.
  specialize (H foo_parser "_shtab_tool" None module_loaded
                [Str "foo-bar"; Str "foo_bar"] []
                [Line_opts "_shtab_tool_foo_bar" ["-a"];
                 Line_opts "_shtab_tool_foo_bar" ["-b"]]
                ltac:(vm_compute; reflexivity)).
  cbn in H. apply NoDup_ListNoDup in H. inversion H as [|x l Hn _]; subst.
  apply Hn. left. reflexivity.
Qed.

(** An underscore in a name is enough for a collision, between a node and
    a node one level further down. *)
Example underscore_names_collide :
  exists commands global_options lines,
    fst (print_bash_commands a_b_parser "_shtab_tool" None module_loaded)
    = Return (commands, global_options, lines)
    /\ node_ids lines = ["_shtab_tool_a"; "_shtab_tool_a_b"; "_shtab_tool_a_b"].
Proof. eexists _, _, _. split; vm_compute; reflexivity. Qed.

(** C7, amended: in a tree whose nodes have pairwise distinct subcommand
    names free of hyphens and underscores, no node identifier is written
    twice in one run. *)
Theorem node_ids_unique (parser : ArgumentParser) (root_prefix : string)
    (cf : option (gmap string string)) (w : World)
    (commands : list obj) (global_options : list string) (lines : list Line) :
  well_named parser ->
  fst (print_bash_commands parser root_prefix cf w)
  = Return (commands, global_options, lines) ->
  NoDup (node_ids lines).
Proof.
  intros Hw H. apply print_bash_commands_Return in H as (tbl & _ & ->).
  apply emitted_ids_NoDup. exact Hw.
Qed.

Ltac well_named_node :=
  constructor;
  [ apply NoDup_ListNoDup; cbn; repeat constructor; cbn; intuition discriminate
  | cbn; repeat constructor
  | let Hsub := fresh in let Hget := fresh in
    intros ? ? ? Hsub Hget; cbn in Hsub;
    repeat (destruct Hsub as [<-|Hsub]); [..|destruct Hsub]; cbn in Hget;
    repeat match type of Hget with
           | (if ?b then _ else _) = _ => destruct b
           end;
    try discriminate Hget; injection Hget as <- ].

Lemma leaf_parser_well_named : well_named leaf_parser.
Proof. well_named_node. Qed.

Lemma mixed_parser_well_named : well_named mixed_parser.
Proof. well_named_node. apply leaf_parser_well_named. Qed.

Lemma nested_parser_well_named : well_named nested_parser.
Proof. well_named_node. apply mixed_parser_well_named. Qed.

Lemma node_ids_unique_witness :
  NoDup (node_ids [Line_opts "_shtab_tool_add" ["all"; "-n"];
                   Line_opts "_shtab_tool_add_all" ["-q"; "--quiet"];
                   Line_compgen "_shtab_tool_add" "_shtab_compgen_files"]).
Proof.
  apply (node_ids_unique nested_parser "_shtab_tool" None module_loaded
           [Str "add"] ["--verbose"]).
  - apply nested_parser_well_named.
  - vm_compute. reflexivity.
Defined.

(** * Further properties *)

(** ** When generation succeeds *)

Lemma returns_ret {S A} (a : A) : returns (@ret S A a).
Proof. intros st. eexists _, _. reflexivity. Qed.

Lemma returns_bind {S A B} (c : Eff S A) (k : A -> Eff S B) :
  returns c -> (forall a, returns (k a)) -> returns (bind c k).
Proof.
  intros Hc Hk st. unfold bind.
  destruct (Hc st) as (a & s1 & ->). apply Hk.
Qed.

Lemma returns_for_each {S A B} (body : B -> A -> Eff S B) (l : list A) :
  (forall acc x, In x l -> returns (body acc x)) ->
  forall acc, returns (for_each l body acc).
Proof.
  induction l as [|x r IH]; intros Hb acc; cbn [for_each].
  - apply returns_ret.
  - apply returns_bind; [apply Hb; left; reflexivity|].
    intros a. apply IH. intros acc1 y Hy. apply Hb. right. exact Hy.
Qed.

Lemma returns_log (lvl : Level) (m : string) (a : list LogArg) :
  returns (logger_log lvl m a).
Proof. intros st. eexists _, _. reflexivity. Qed.

Lemma returns_print (line : Line) : returns (print line).
Proof. intros st. eexists _, _. reflexivity. Qed.

Lemma getitem_iter (cs : list (obj * option ArgumentParser)) (name : string)
    (child : ArgumentParser) :
  getitem cs name = Some child -> In (Str name) (iter cs).
Proof.
  induction cs as [|[[k|c] v] r IH]; cbn; intros H; [discriminate| |].
  - destruct (String.eqb_spec k name) as [->|_]; [left; reflexivity|right; auto].
  - right. auto.
Qed.

Lemma has_choices_false (sub : PositionalAction) :
  has_choices sub = false -> choices sub = [].
Proof. unfold has_choices. destruct (choices sub); [reflexivity|discriminate]. Qed.

Section Success.

Variable root_prefix : string.
Variable tbl : gmap string string.

(** With fuel for its depth, the traversal of a traversable tree returns. *)
Lemma recurse_returns (fuel : nat) :
  forall parser prefix,
    (depth parser <= fuel)%nat -> traversable tbl parser ->
    returns (recurse root_prefix tbl fuel parser prefix).
Proof.
  induction fuel as [|n IH]; intros parser prefix Hd Ht.
  { destruct parser; cbn in Hd. lia. }
  destruct Ht as [parser Hm Hl Hc].
  cbn [recurse]. apply returns_bind.
  { destruct (String.eqb prefix root_prefix).
    - apply returns_bind; [intros st; eexists _, _; reflexivity|intros _].
      apply returns_bind; [intros st; eexists _, _; reflexivity|intros ro].
      apply returns_log.
    - apply returns_bind; [intros st; eexists _, _; reflexivity|intros ro].
      destruct (as_strs_Some _ (node_opts_strs parser ro)) as [opts ->].
      apply returns_print. }
  intros _. apply returns_bind.
  2:{ intros cs. apply returns_bind; [|intros _; apply returns_ret].
      destruct cs; [apply returns_ret|apply returns_log]. }
  apply returns_for_each. intros acc sub Hsub.
  destruct (has_choices sub).
  2:{ apply returns_bind; [apply returns_log|intros _; apply returns_ret]. }
  apply returns_bind; [apply returns_log|intros _].
  apply returns_for_each. intros acc1 cmd Hcmd.
  apply (Permutation_in _ (sorted_Permutation _)) in Hcmd.
  destruct cmd as [name|c].
  - destruct (Hl sub name Hsub Hcmd) as [child G]. rewrite G.
    apply returns_bind; [|intros _; apply returns_ret].
    apply IH; [|eapply Hc; eauto].
    pose proof (depth_child parser child sub name Hsub G). lia.
  - destruct (Hm sub c Hsub Hcmd) as [fn E]. rewrite E.
    apply returns_bind; [apply returns_log|intros _].
    apply returns_bind; [apply returns_print|intros _; apply returns_ret].
Qed.

(** A traversal that returns has been through a traversable tree. *)
Lemma recurse_Return_traversable (fuel : nat) :
  forall parser prefix st cmds st',
    recurse root_prefix tbl fuel parser prefix st = (Return cmds, st') ->
    traversable tbl parser.
Proof.
  induction fuel as [|n IH]; intros parser prefix st cmds st' H.
  { cbn in H. discriminate. }
  cbn [recurse] in H.
  apply bind_Return in H as ([] & s1 & _ & H).
  apply bind_Return in H as (cs & s2 & Hloop & _).
  assert (forall sub cmd, In sub (_get_positional_actions parser) ->
            In cmd (iter (choices sub)) ->
            match cmd with
            | Marker c => exists fn, tbl !! type c = Some fn
            | Str name => exists child, getitem (choices sub) name = Some child
                                        /\ traversable tbl child
            end) as Hall.
  { intros sub cmd Hsub Hcmd.
    destruct (for_each_Return_each _ _ _ _ _ _ Hloop sub Hsub)
      as (a1 & sa & a2 & sb & Hbody).
    destruct (has_choices sub) eqn:Hh;
      [|apply has_choices_false in Hh; rewrite Hh in Hcmd; destruct Hcmd].
    apply bind_Return in Hbody as ([] & sc & _ & Hbody).
    apply (Permutation_in _ (Permutation_sym (sorted_Permutation _))) in Hcmd.
    destruct (for_each_Return_each _ _ _ _ _ _ Hbody cmd Hcmd)
      as (b1 & sd & b2 & se & Hc).
    destruct cmd as [name|c].
    - destruct (getitem (choices sub) name) as [child|]; [|discriminate Hc].
      apply bind_Return in Hc as (x & sf & Hrec & _).
      exists child. split; [reflexivity|]. eapply IH; eauto.
    - apply bind_Return in Hc as ([] & sf & _ & Hc).
      apply bind_Return in Hc as ([] & sg & Hg & _).
      destruct (tbl !! type c) as [fn|]; [eauto|discriminate Hg]. }
  constructor.
  - intros sub c Hsub Hc. exact (Hall sub (Marker c) Hsub Hc).
  - intros sub name Hsub Hn. destruct (Hall sub (Str name) Hsub Hn) as (child & G & _).
    eauto.
  - intros sub name child Hsub G.
    destruct (Hall sub (Str name) Hsub (getitem_iter _ _ _ G)) as (child' & G' & Ht).
    rewrite G in G'. injection G' as <-. exact Ht.
Qed.

End Success.

(** X1: [complete] for [bash] returns a script exactly when the tree is
    traversable with the merged table: every marker the traversal reaches
    has its type in the table, every literal entry its sub-parser. *)
Theorem complete_returns_iff_traversable (parser : ArgumentParser) (kw : kwargs)
    (w : World) :
  (exists out, fst (complete parser "bash" kw w) = Return out)
  <-> traversable (merged_table (module_CHOICE_FUNCTIONS w) (kw_choice_functions kw))
                  parser.
Proof.
  unfold complete. cbn [String.eqb Ascii.eqb Bool.eqb]. cbv iota.
  unfold print_bash, bind at 1, print_bash_commands. split.
  - intros [out H].
    destruct (recurse _ _ _ _ _ _) as [[cs|e|] st'] eqn:E; try discriminate H.
    eapply recurse_Return_traversable; eauto.
  - intros Ht.
    destruct (recurse_returns (namespace_prefix parser (kw_root_prefix kw)) _
                (S (depth parser)) parser (namespace_prefix parser (kw_root_prefix kw))
                (Nat.le_succ_diag_r _) Ht (mkState [] [] (logged w)))
      as (cs & st' & E).
    rewrite E.
    destruct (as_strs_Some cs) as [names En];
      [eapply recurse_commands_strs; eauto|].
    unfold bind. cbn. rewrite En. cbn. eauto.
Qed.

(** ** Which exceptions generation raises *)










(** ** The commands a node returns *)

Lemma recurse_commands (root_prefix : string) (tbl : gmap string string) (fuel : nat)
    (parser : ArgumentParser) (prefix : string) (st st' : State) (cmds : list obj) :
  recurse root_prefix tbl fuel parser prefix st = (Return cmds, st') ->
  cmds = sorted_literals parser.
Proof.
  destruct fuel as [|n]; intros H; [cbn in H; discriminate|].
  cbn [recurse] in H.
  apply bind_Return in H as ([] & s1 & _ & H).
  apply bind_Return in H as (cs & s2 & Hloop & H).
  apply bind_Return in H as ([] & s3 & _ & H).
  unfold ret in H. injection H as -> ->.
  unfold sorted_literals.
  match goal with
  | |- _ = flat_map ?F _ => set (F0 := F)
  end.
  revert Hloop.
  apply (for_each_Return (fun done (acc : list obj) (_ : State) =>
                            acc = flat_map F0 done)); [|reflexivity].
  intros done sub acc sa acc' sb _ -> Hbody.
  rewrite flat_map_app. cbn [flat_map]. rewrite app_nil_r. subst F0. cbn beta.
  destruct (has_choices sub) eqn:Hh.
  2:{ apply bind_Return in Hbody as ([] & sc & _ & Hbody).
      unfold ret in Hbody. injection Hbody as <- _.
      apply has_choices_false in Hh. rewrite Hh. cbn. rewrite app_nil_r. reflexivity. }
  apply bind_Return in Hbody as ([] & sc & _ & Hbody).
  revert Hbody.
  match goal with
  | |- _ -> _ = (?a ++ List.filter ?f ?l)%list =>
      apply (for_each_Return (fun done' (acc1 : list obj) (_ : State) =>
                                acc1 = (a ++ List.filter f done')%list))
  end; [|cbn; rewrite app_nil_r; reflexivity].
  intros done' cmd acc1 sd acc1' se _ -> Hcmd.
  rewrite List.filter_app, app_assoc. cbn [List.filter].
  destruct cmd as [name|c]; cbn [isinstance_Choice negb].
  - destruct (getitem (choices sub) name) as [child|]; [|discriminate Hcmd].
    apply bind_Return in Hcmd as (x & sf & _ & Hcmd).
    unfold ret in Hcmd. injection Hcmd as <- _. reflexivity.
  - apply bind_Return in Hcmd as ([] & sf & _ & Hcmd).
    apply bind_Return in Hcmd as ([] & sg & _ & Hcmd).
    unfold ret in Hcmd. injection Hcmd as <- _. rewrite app_nil_r. reflexivity.
Qed.

Lemma In_sorted_literals (parser : ArgumentParser) (name : string) :
  In (Str name) (sorted_literals parser) <-> In name (child_names parser).
Proof.
  unfold sorted_literals, child_names. rewrite !in_flat_map. split.
  - intros (sub & Hsub & H). exists sub. split; [exact Hsub|].
    apply filter_In in H as [H _].
    apply (Permutation_in _ (sorted_Permutation _)) in H.
    apply in_flat_map. exists (Str name). split; [exact H|left; reflexivity].
  - intros (sub & Hsub & H). exists sub. split; [exact Hsub|].
    apply in_flat_map in H as (o & Ho & Hn).
    destruct o as [s|c]; [|destruct Hn]. destruct Hn as [->|[]].
    apply filter_In. split; [|reflexivity].
    apply (Permutation_in _ (Permutation_sym (sorted_Permutation _))). exact Ho.
Qed.

(** X3, for a root whose positionals have fewer than 64 choices each (the
    lists [sorted] is the interpreter's sort of): the commands
    [print_bash_commands] returns are the literal entries of the root's
    positionals, positional after positional, each one's in the order
    [sorted] gives; they are the root's subcommand names, and those of no
    deeper node. *)
Theorem root_commands_are_sorted_literals (parser : ArgumentParser)
    (root_prefix : string) (cf : option (gmap string string)) (w : World)
    (commands : list obj) (global_options : list string) (lines : list Line) :
  Forall (fun sub => (length (choices sub) < 64)%nat)
         (_get_positional_actions parser) ->
  fst (print_bash_commands parser root_prefix cf w)
  = Return (commands, global_options, lines) ->
  commands = sorted_literals parser
  /\ forall name, In (Str name) commands <-> In name (child_names parser).
Proof.
  unfold print_bash_commands. intros _ H.
  destruct (recurse _ _ _ _ _ _) as [[cs|e|] st'] eqn:E; try discriminate H.
  cbn in H. injection H as -> _ _.
  apply recurse_commands in E. subst commands.
  split; [reflexivity|]. apply In_sorted_literals.
Qed.

Lemma root_commands_are_sorted_literals_witness :
  [Str "pull"; Str "push"] = sorted_literals scenario_parser
  /\ forall name,
       In (Str name) [Str "pull"; Str "push"] <-> In name (child_names scenario_parser).
Proof.
  apply (root_commands_are_sorted_literals scenario_parser "_shtab_tool" None
           module_loaded [Str "pull"; Str "push"] ["--verbose"]
           [Line_opts "_shtab_tool_pull" [];
            Line_compgen "_shtab_tool_pull" "_shtab_compgen_files";
            Line_opts "_shtab_tool_push" ["--force"]]).
  - repeat constructor.
  - vm_compute. reflexivity.
Defined.

(** ** The lines of a run *)

(** The lines [print_bash_commands] returns, with the table it used. *)
Lemma print_bash_commands_lines (parser : ArgumentParser) (root_prefix : string)
    (cf : option (gmap string string)) (w : World)
    (commands : list obj) (global_options : list string) (lines : list Line) :
  fst (print_bash_commands parser root_prefix cf w)
  = Return (commands, global_options, lines) ->
  global_options = get_optional_actions parser
  /\ lines = emitted (merged_table (module_CHOICE_FUNCTIONS w) cf) global_options
               (S (depth parser)) true parser root_prefix.
Proof.
  unfold print_bash_commands. intros H.
  destruct (recurse _ _ _ _ _ _) as [[cs|e|] st'] eqn:E; try discriminate.
  cbn in H. injection H as -> <- <-.
  apply recurse_emits in E; [|exists ""; symmetry; apply string_app_nil_r].
  rewrite String.eqb_refl in E. cbn in E. exact E.
Qed.

Lemma replace_no_hyphen (s : string) : no_hyphen (replace "-" "_" s) = true.
Proof.
  unfold replace. induction s as [|c r IH]; [reflexivity|].
  cbn [replace_from String.prefix String.length Nat.sub].
  destruct (ascii_dec "-" c) as [<-|Hc].
  - destruct r; cbn [String.prefix]; rewrite string_app_cons, string_app_nil_l;
      cbn [no_hyphen]; rewrite IH; reflexivity.
  - cbn [no_hyphen]. rewrite IH.
    destruct (Ascii.eqb_spec c "-") as [->|_]; [contradiction|reflexivity].
Qed.

Lemma no_hyphen_app (s t : string) :
  no_hyphen s = true -> no_hyphen t = true -> no_hyphen (s ++ t) = true.
Proof.
  induction s as [|c r IH]; intros Hs Ht; [exact Ht|].
  rewrite string_app_cons. cbn [no_hyphen] in *.
  apply andb_prop in Hs as [-> Hr]. rewrite IH by assumption. reflexivity.
Qed.

Section LineFacts.

Variable tbl : gmap string string.
Variable ro : list string.

(** Below a node, what follows the node's prefix in an identifier has no
    hyphen. *)
Lemma emitted_no_hyphen (fuel : nat) (is_root : bool) (parser : ArgumentParser)
    (prefix : string) :
  Forall (fun line => exists rest, line_prefix line = prefix ++ rest
                                   /\ no_hyphen rest = true)
         (emitted tbl ro fuel is_root parser prefix).
Proof.
  apply (emitted_Forall tbl ro
           (fun p => exists rest, p = prefix ++ rest /\ no_hyphen rest = true)).
  - intros p name (rest & -> & Hr). exists (rest ++ "_" ++ replace "-" "_" name).
    split; [apply string_app_assoc|].
    apply no_hyphen_app; [exact Hr|].
    apply (no_hyphen_app "_"); [reflexivity|apply replace_no_hyphen].
  - intros _ p opts H _. exact H.
  - intros p fn H. exact H.
  - exists "". split; [symmetry; apply string_app_nil_r|reflexivity].
Qed.

(** Every function a marker line binds is a value of the table, under the
    type of a marker. *)
Lemma emitted_compgen (fuel : nat) :
  forall is_root parser prefix p fn,
    In (Line_compgen p fn) (emitted tbl ro fuel is_root parser prefix) ->
    exists k, tbl !! k = Some fn.
Proof.
  induction fuel as [|n IH]; intros is_root parser prefix p fn H; cbn [emitted] in H.
  { destruct H. }
  apply in_app_or in H as [H|H].
  - destruct is_root; [destruct H|]. unfold own_line in H.
    destruct (as_strs _); [|destruct H]. destruct H as [H|[]]. discriminate H.
  - apply in_flat_map in H as (sub & _ & H).
    destruct (has_choices sub); [|destruct H].
    apply in_flat_map in H as (cmd & _ & H).
    destruct cmd as [name|c].
    + destruct (getitem _ _) as [child|]; [|destruct H]. eapply IH; eauto.
    + destruct (tbl !! type c) as [f|] eqn:E; [|destruct H].
      destruct H as [H|[]]. injection H as _ <-. eauto.
Qed.

End LineFacts.

(** X4: every identifier of a run is the root prefix followed by a text
    without hyphen: below the prefix the caller chose, hyphens of subcommand
    names never reach the script's variable names. *)
Theorem identifiers_have_no_hyphen (parser : ArgumentParser) (root_prefix : string)
    (cf : option (gmap string string)) (w : World)
    (commands : list obj) (global_options : list string) (lines : list Line) :
  fst (print_bash_commands parser root_prefix cf w)
  = Return (commands, global_options, lines) ->
  Forall (fun line => exists rest, line_prefix line = root_prefix ++ rest
                                   /\ no_hyphen rest = true) lines.
Proof.
  intros H. apply print_bash_commands_lines in H as [_ ->].
  apply emitted_no_hyphen.
Qed.

Lemma identifiers_have_no_hyphen_witness :
  Forall (fun line => exists rest, line_prefix line = "_shtab_tool" ++ rest
                                   /\ no_hyphen rest = true)
         [Line_opts "_shtab_tool_foo_bar" ["-a"];
          Line_opts "_shtab_tool_foo_bar" ["-b"]].
Proof.
  apply (identifiers_have_no_hyphen foo_parser "_shtab_tool" None module_loaded
           [Str "foo-bar"; Str "foo_bar"] []).
  vm_compute. reflexivity.
Defined.

Lemma CHOICE_FUNCTIONS_values (k fn : string) :
  CHOICE_FUNCTIONS !! k = Some fn -> fn = "_shtab_compgen_files".
Proof.
  unfold CHOICE_FUNCTIONS. intros H.
  apply lookup_insert_Some in H as [[_ <-]|[_ H]]; [reflexivity|].
  apply lookup_insert_Some in H as [[_ <-]|[_ H]]; [reflexivity|].
  rewrite lookup_empty in H. discriminate H.
Qed.

(** [update] on a copy: the caller's entries win, the others stay. *)
Lemma merged_table_lookup (table : gmap string string)
    (cf : option (gmap string string)) (k : string) :
  merged_table table cf !! k
  = match cf with
    | Some m => match m !! k with Some fn => Some fn | None => table !! k end
    | None => table !! k
    end.
Proof.
  unfold merged_table, update. destruct cf as [m|]; [|reflexivity].
  destruct (decide (m = ∅)) as [->|_].
  - rewrite lookup_empty. reflexivity.
  - rewrite lookup_union. destruct (m !! k), (table !! k); reflexivity.
Qed.

(** X5: the function a marker line binds is the caller's for some marker
    type the caller's mapping has, the module table's for a type only the
    table has. With the module's table as loaded and no mapping from the
    caller, it is [_shtab_compgen_files] on every such line. *)
Theorem compgen_functions_from_table (parser : ArgumentParser) (root_prefix : string)
    (cf : option (gmap string string)) (w : World)
    (commands : list obj) (global_options : list string) (lines : list Line)
    (p fn : string) :
  fst (print_bash_commands parser root_prefix cf w)
  = Return (commands, global_options, lines) ->
  In (Line_compgen p fn) lines ->
  (exists k,
      match cf with
      | Some m => m !! k = Some fn
                  \/ (m !! k = None /\ module_CHOICE_FUNCTIONS w !! k = Some fn)
      | None => module_CHOICE_FUNCTIONS w !! k = Some fn
      end)
  /\ (cf = None -> module_CHOICE_FUNCTIONS w = CHOICE_FUNCTIONS ->
      fn = "_shtab_compgen_files").
Proof.
  intros H Hin. apply print_bash_commands_lines in H as [_ ->].
  apply emitted_compgen in Hin as [k Hk]. rewrite merged_table_lookup in Hk. split.
  - exists k. destruct cf as [m|]; [|exact Hk].
    destruct (m !! k); [left; exact Hk|right; auto].
  - intros -> Hw. rewrite Hw in Hk. eapply CHOICE_FUNCTIONS_values; eauto.
Qed.

Lemma compgen_functions_from_table_witness :
  (exists k,
      ({["url" := "_tool_urls"]} : gmap string string) !! k = Some "_tool_urls"
      \/ (({["url" := "_tool_urls"]} : gmap string string) !! k = None
          /\ module_CHOICE_FUNCTIONS module_loaded !! k = Some "_tool_urls"))
  /\ (Some ({["url" := "_tool_urls"]} : gmap string string) = None ->
      module_CHOICE_FUNCTIONS module_loaded = CHOICE_FUNCTIONS ->
      "_tool_urls" = "_shtab_compgen_files").
Proof.
  apply (compgen_functions_from_table url_parser "_shtab_tool"
           (Some {["url" := "_tool_urls"]}) module_loaded
           [Str "add"; Str "fetch"] ["--verbose"]
           [Line_opts "_shtab_tool_add" ["all"; "-n"];
            Line_opts "_shtab_tool_add_all" ["-q"; "--quiet"];
            Line_compgen "_shtab_tool_add" "_shtab_compgen_files";
            Line_opts "_shtab_tool_fetch" ["--depth"];
            Line_compgen "_shtab_tool_fetch" "_tool_urls"]
           "_shtab_tool_fetch" "_tool_urls").
  - vm_compute. reflexivity.
  - cbn. tauto.
Defined.

(** ** The declaration of a node *)

Lemma as_strs_map (l : list obj) :
  forall ss, as_strs l = Some ss -> l = map Str ss.
Proof.
  induction l as [|[s|c] r IH]; intros ss H; cbn in H.
  - injection H as <-. reflexivity.
  - destruct (as_strs r) as [ss'|]; [|discriminate].
    injection H as <-. cbn. f_equal. auto.
  - discriminate.
Qed.

(** The words of a node's option list: its subcommand names and its own
    option strings, those in [root_options] left out. *)
Lemma node_opts_In (parser : ArgumentParser) (root_options : list string) (word : string) :
  In (Str word) (node_opts parser root_options)
  <-> (In word (child_names parser) \/ In word (get_optional_actions parser))
      /\ ~ In word root_options.
Proof.
  unfold node_opts. rewrite filter_In, in_app_iff, negb_true_iff.
  rewrite <- not_true_iff_false, contains_In.
  assert (In (Str word)
             (flat_map (fun sub =>
                          if has_choices sub
                          then List.filter (fun opt => negb (isinstance_Choice opt))
                                           (iter (choices sub))
                          else []) (_get_positional_actions parser))
          <-> In word (child_names parser)) as ->.
  { unfold child_names. rewrite !in_flat_map. split.
    - intros (sub & Hsub & H). exists sub. split; [exact Hsub|].
      destruct (has_choices sub); [|destruct H].
      apply filter_In in H as [H _]. apply in_flat_map.
      exists (Str word). split; [exact H|left; reflexivity].
    - intros (sub & Hsub & H). exists sub. split; [exact Hsub|].
      apply in_flat_map in H as (o & Ho & Hw).
      destruct o as [s|c]; [|destruct Hw]. destruct Hw as [->|[]].
      destruct (has_choices sub) eqn:Hh.
      + apply filter_In. split; [exact Ho|reflexivity].
      + apply has_choices_false in Hh. rewrite Hh in Ho. destruct Ho. }
  assert (In (Str word) (map Str (get_optional_actions parser))
          <-> In word (get_optional_actions parser)) as ->.
  { rewrite in_map_iff. split.
    - intros (x & E & Hx). injection E as ->. exact Hx.
    - intros H. exists word. auto. }
  reflexivity.
Qed.

(** X6: a node other than the root is declared, before anything of the
    nodes below it is written, with the words of its option list in their
    order: a word is declared exactly when it is a subcommand name or an
    option string of the node and no option string of the root. The line
    is written also when no word is left. *)
Theorem node_declaration (root_prefix : string) (tbl : gmap string string)
    (fuel : nat) (parser : ArgumentParser) (prefix : string)
    (st st' : State) (commands : list obj) :
  (exists t, prefix = root_prefix ++ t) ->
  prefix <> root_prefix ->
  recurse root_prefix tbl fuel parser prefix st = (Return commands, st') ->
  exists opts rest,
    fd st' = (fd st ++ Line_opts prefix opts :: rest)%list
    /\ map Str opts = node_opts parser (root_options st)
    /\ forall word,
         In word opts
         <-> (In word (child_names parser) \/ In word (get_optional_actions parser))
             /\ ~ In word (root_options st).
Proof.
  intros Hext Hne H.
  destruct fuel as [|n]; [cbn in H; discriminate|].
  apply recurse_emits in H; [|exact Hext].
  apply String.eqb_neq in Hne. rewrite Hne in H. destruct H as [Hr Hf].
  rewrite Hr in Hf. cbn [emitted] in Hf. unfold own_line in Hf.
  destruct (as_strs_Some _ (node_opts_strs parser (root_options st))) as [opts E].
  rewrite E in Hf. apply as_strs_map in E.
  eexists opts, _. split; [exact Hf|]. split; [symmetry; exact E|].
  intros word. rewrite <- node_opts_In, E, in_map_iff. split.
  - intros Hw. exists word. auto.
  - intros (x & Ex & Hx). injection Ex as ->. exact Hx.
Qed.

Lemma node_declaration_witness :
  exists opts rest,
    [Line_opts "_shtab_tool_add" ["all"; "-n"];
     Line_opts "_shtab_tool_add_all" ["-q"; "--quiet"];
     Line_compgen "_shtab_tool_add" "_shtab_compgen_files"]
    = ([] ++ Line_opts "_shtab_tool_add" opts :: rest)%list
    /\ map Str opts = node_opts mixed_parser ["--verbose"]
    /\ forall word,
         In word opts
         <-> (In word (child_names mixed_parser)
              \/ In word (get_optional_actions mixed_parser))
             /\ ~ In word ["--verbose"].
Proof.
  apply (node_declaration "_shtab_tool" CHOICE_FUNCTIONS 2 mixed_parser
           "_shtab_tool_add" (mkState ["--verbose"] [] [])
           (mkState ["--verbose"]
              [Line_opts "_shtab_tool_add" ["all"; "-n"];
               Line_opts "_shtab_tool_add_all" ["-q"; "--quiet"];
               Line_compgen "_shtab_tool_add" "_shtab_compgen_files"]
              [mkLog WARNING "choices:{}:{}"
                 [AStr "_shtab_tool_add"; AList [Str "all"; FILE_required]];
               mkLog WARNING "Choice.{}:{}:{}"
                 [AStr "file"; AStr "_shtab_tool_add"; AStr "target"];
               mkLog DEBUG "subcommands:{}:{}"
                 [AStr "_shtab_tool_add"; AList [Str "all"]]])
           [Str "all"]).
  - exists "_add". reflexivity.
  - discriminate.
  - vm_compute. reflexivity.
Defined.

(** ** The root declarations of the script *)

(** X7: in every script the variables [_options_] and [_global_options_]
    are declared with one and the same text, the root's option strings
    joined by blanks. *)
Theorem options_and_global_options_agree (parser : ArgumentParser)
    (root_prefix preamble : option string) (cf : option (gmap string string))
    (w : World) (out : string) :
  fst (print_bash parser root_prefix preamble cf w) = Return out ->
  exists commands lines,
    out = header (namespace_prefix parser root_prefix) commands
            (join " " (get_optional_actions parser))
            (join " " (get_optional_actions parser)) (getvalue lines)
          ++ preamble_block preamble
          ++ replace "{root_prefix}" (namespace_prefix parser root_prefix)
               dispatcher_template.
Proof.
  intros H. apply print_bash_Return in H as (c & cs & g & l & Hc & _ & ->).
  apply print_bash_commands_lines in Hc as [-> _]. eauto.
Qed.

Lemma options_and_global_options_agree_witness :
  exists commands lines,
    header "_shtab_tool" "add" "--verbose" "--verbose"
      (getvalue [Line_opts "_shtab_tool_add" ["all"; "-n"];
                 Line_opts "_shtab_tool_add_all" ["-q"; "--quiet"];
                 Line_compgen "_shtab_tool_add" "_shtab_compgen_files"])
    ++ preamble_block (Some "# for tool")
    ++ replace "{root_prefix}" "_shtab_tool" dispatcher_template
    = header (namespace_prefix nested_parser None) commands
        (join " " (get_optional_actions nested_parser))
        (join " " (get_optional_actions nested_parser)) (getvalue lines)
      ++ preamble_block (Some "# for tool")
      ++ replace "{root_prefix}" (namespace_prefix nested_parser None)
           dispatcher_template.
Proof.
  apply (options_and_global_options_agree nested_parser None (Some "# for tool") None
           module_loaded).
  vm_compute. reflexivity.
Defined.

(** ** Values against the marker lists *)

(** X8: as the [choices] of an argument, [Optional.FILE] and
    [Optional.DIRECTORY] contain every string, and [Required.FILE] and
    [Required.DIRECTORY] contain the strings that are not empty: a one-marker
    list contains a value unless the marker is required and the value is
    empty. *)
Theorem marker_lists_membership (s : string) :
  (forall c, py_in (Str s) [Marker c] = negb (required c) || negb (String.eqb s ""))
  /\ py_in (Str s) Optional.FILE = true
  /\ py_in (Str s) Optional.DIRECTORY = true
  /\ py_in (Str s) Required.FILE = negb (String.eqb s "")
  /\ py_in (Str s) Required.DIRECTORY = negb (String.eqb s "").
Proof.
  assert (forall c, py_in (Str s) [Marker c]
                    = negb (required c) || negb (String.eqb s "")) as H.
  { intros c. cbn. unfold ChoiceM.__eq__, ChoiceM.__cmp__. cbn.
    destruct (required c), (String.eqb s ""); reflexivity. }
  split; [exact H|]. repeat split; apply H.
Qed.

(** ** The program name *)

Lemma complete_with_prog (parser : ArgumentParser) (p : string)
    (shell : string) (kw : kwargs) (w : World) (root_prefix : string) :
  kw_root_prefix kw = Some root_prefix ->
  root_prefix <> "" ->
  fst (complete (with_prog parser p) shell kw w) = fst (complete parser shell kw w).
Proof.
  intros Hk Hne. unfold complete. destruct (String.eqb shell "bash"); [|reflexivity].
  unfold print_bash, namespace_prefix, or_else. rewrite Hk.
  apply String.eqb_neq in Hne. rewrite Hne.
  destruct parser as [pr opt pos]. reflexivity.
Qed.

(** X9: with a prefix from the caller, the program name of the parser has
    no part in the script, nor in the exception: after [parser.prog = p]
    the outcome of [complete] is what it was. *)
Theorem prog_is_ignored_under_a_prefix (parser : ArgumentParser) (p : string)
    (shell : string) (kw : kwargs) (w : World) (root_prefix : string) :
  kw_root_prefix kw = Some root_prefix ->
  root_prefix <> "" ->
  fst (complete (with_prog parser p) shell kw w) = fst (complete parser shell kw w).
Proof. apply complete_with_prog. Qed.

Lemma prog_is_ignored_under_a_prefix_witness :
  fst (complete (with_prog git_parser "hg") "bash" (mkKwargs (Some "vcs") None None)
         module_loaded)
  = fst (complete git_parser "bash" (mkKwargs (Some "vcs") None None) module_loaded).
Proof.
  apply (prog_is_ignored_under_a_prefix git_parser "hg" "bash"
           (mkKwargs (Some "vcs") None None) module_loaded "vcs").
  - reflexivity.
  - discriminate.
Defined.

(** ** The command line *)

Lemma rsplit_dot_None (s : string) : rsplit_dot s = None <-> has_dot s = false.
Proof.
  induction s as [|c r IH]; cbn; [tauto|].
  destruct (rsplit_dot r) as [[a b]|].
  - split; [discriminate|]. intros H. apply orb_false_elim in H as [_ H].
    apply IH in H. discriminate H.
  - rewrite (proj1 IH eq_refl), orb_false_r.
    destruct (Ascii.eqb c "."); split; congruence.
Qed.

(** The two texts of [rsplit_dot] give the path back, and the second has
    no dot. *)
Lemma rsplit_dot_Some (s : string) :
  forall a b, rsplit_dot s = Some (a, b) -> s = a ++ "." ++ b /\ has_dot b = false.
Proof.
  induction s as [|c r IH]; intros a b H; cbn in H; [discriminate|].
  destruct (rsplit_dot r) as [[a' b']|] eqn:E.
  - injection H as <- <-. destruct (IH a' b' eq_refl) as [-> Hb].
    split; [reflexivity|exact Hb].
  - destruct (Ascii.eqb_spec c ".") as [->|_]; [|discriminate].
    injection H as <- <-. split; [reflexivity|]. apply rsplit_dot_None, E.
Qed.

(** X10: for a parser path without dot [main] raises [ValueError] (the
    result of [rsplit] does not unpack in two) whatever the import system
    would find; it has then printed nothing, generated nothing and left
    [sys.path] as it was. *)
Theorem main_path_without_dot (import_module : list string -> string -> Imported)
    (args : Namespace) (pr : Process) :
  has_dot (arg_parser args) = false ->
  fst (main import_module args pr) = MainRaised ValueError
  /\ sys_path (snd (main import_module args pr)) = sys_path pr
  /\ stdout (snd (main import_module args pr)) = stdout pr
  /\ shtab (snd (main import_module args pr)) = shtab pr.
Proof.
  intros H. apply rsplit_dot_None in H. unfold main. rewrite H. cbn. auto.
Qed.

Lemma main_path_without_dot_witness :
  has_dot "parser" = false
  /\ fst (main one_module (mkNamespace "parser" "bash" None None None true)
               fresh_process)
     = MainRaised ValueError
  /\ sys_path (snd (main one_module (mkNamespace "parser" "bash" None None None true)
                         fresh_process))
     = ["/usr/bin"; "/usr/lib/python3"]
  /\ stdout (snd (main one_module (mkNamespace "parser" "bash" None None None true)
                       fresh_process))
     = []
  /\ shtab (snd (main one_module (mkNamespace "parser" "bash" None None None true)
                      fresh_process))
     = module_loaded.
Proof.
  split; [reflexivity|].
  apply (main_path_without_dot one_module
           (mkNamespace "parser" "bash" None None None true) fresh_process).
  reflexivity.
Defined.

(** X11: when the import raises [ImportError], [main] raises it with
    [--error-unimportable] and returns without it; in both cases nothing is
    printed and nothing is generated. *)
Theorem main_unimportable (import_module : list string -> string -> Imported)
    (args : Namespace) (pr : Process) (module attribute : string) :
  rsplit_dot (arg_parser args) = Some (module, attribute) ->
  import_module (insert_curdir (sys_path pr)) module = import_error ->
  fst (main import_module args pr)
  = (if arg_error_unimportable args then MainRaised ImportError else Returned)
  /\ stdout (snd (main import_module args pr)) = stdout pr
  /\ shtab (snd (main import_module args pr)) = shtab pr.
Proof.
  intros E Hi. unfold main. rewrite E, Hi.
  destruct (arg_error_unimportable args); cbn; auto.
Qed.

Lemma main_unimportable_witness :
  fst (main one_module (mkNamespace "nowhere.parser" "bash" None None None false)
         fresh_process)
  = (if false then MainRaised ImportError else Returned)
  /\ stdout (snd (main one_module
                    (mkNamespace "nowhere.parser" "bash" None None None false)
                    fresh_process)) = stdout fresh_process
  /\ shtab (snd (main one_module
                   (mkNamespace "nowhere.parser" "bash" None None None false)
                   fresh_process)) = shtab fresh_process.
Proof.
  apply (main_unimportable one_module
           (mkNamespace "nowhere.parser" "bash" None None None false) fresh_process
           "nowhere" "parser"); reflexivity.
Defined.

Lemma override_prog_complete (parser : ArgumentParser) (prog : option string)
    (shell : string) (kw : kwargs) (w : World) (root_prefix : string) :
  kw_root_prefix kw = Some root_prefix ->
  root_prefix <> "" ->
  fst (complete (override_prog parser prog) shell kw w)
  = fst (complete parser shell kw w).
Proof.
  intros Hk Hne. destruct prog as [p|]; [|reflexivity]. cbn.
  destruct (String.eqb p ""); [reflexivity|].
  eapply complete_with_prog; eauto.
Qed.

(** X12: when [--prefix] or the first component of the parser path is not
    empty, [--prog] changes neither the outcome of [main] nor what it
    prints. *)
Theorem main_prog_has_no_effect (import_module : list string -> string -> Imported)
    (args : Namespace) (prog : option string) (pr : Process) :
  or_else (arg_prefix args) (split_dot_first (arg_parser args)) <> "" ->
  fst (main import_module (set_arg_prog args prog) pr) = fst (main import_module args pr)
  /\ stdout (snd (main import_module (set_arg_prog args prog) pr))
     = stdout (snd (main import_module args pr)).
Proof.
  intros Hne. unfold main. cbn [set_arg_prog arg_parser arg_shell arg_prefix
                                arg_preamble arg_prog arg_error_unimportable].
  destruct (rsplit_dot (arg_parser args)) as [[m a]|]; [|auto].
  destruct (import_module _ m) as [md| |]; [| |auto].
  2:{ destruct (arg_error_unimportable args); auto. }
  destruct (md !! a) as [attr|]; [|auto].
  set (q := match attr with a_parser p | a_function p => p end).
  set (kw := mkKwargs _ _ _).
  pose proof (override_prog_complete q prog (arg_shell args) kw (shtab pr) _
                eq_refl Hne) as H1.
  pose proof (override_prog_complete q (arg_prog args) (arg_shell args) kw (shtab pr) _
                eq_refl Hne) as H2.
  rewrite <- H2 in H1. clear H2.
  destruct (complete (override_prog q prog) _ _ _) as [[o1|e1|] w1],
           (complete (override_prog q (arg_prog args)) _ _ _) as [[o2|e2|] w2];
    cbn in H1; try discriminate H1; try (injection H1 as ->); auto.
Qed.

Lemma main_prog_has_no_effect_witness :
  fst (main one_module
         (set_arg_prog (mkNamespace "tool.cli.parser" "bash" None None None false)
                       (Some "my-tool")) fresh_process)
  = fst (main one_module (mkNamespace "tool.cli.parser" "bash" None None None false)
           fresh_process)
  /\ stdout (snd (main one_module
                    (set_arg_prog
                       (mkNamespace "tool.cli.parser" "bash" None None None false)
                       (Some "my-tool")) fresh_process))
     = stdout (snd (main one_module
                      (mkNamespace "tool.cli.parser" "bash" None None None false)
                      fresh_process)).
Proof.
  apply (main_prog_has_no_effect one_module
           (mkNamespace "tool.cli.parser" "bash" None None None false)
           (Some "my-tool") fresh_process).
  vm_compute. discriminate.
Defined.

(** X13: for a shell other than [bash], [zsh] among them, [main] imports
    the parser and then raises the [NotImplementedError] of [complete]: it
    prints nothing, and [sys.path] has its new entry. *)
Theorem main_other_shell (import_module : list string -> string -> Imported)
    (args : Namespace) (pr : Process) (module attribute : string)
    (m : gmap string Attribute) (a : Attribute) :
  rsplit_dot (arg_parser args) = Some (module, attribute) ->
  import_module (insert_curdir (sys_path pr)) module = imported m ->
  m !! attribute = Some a ->
  arg_shell args <> "bash" ->
  fst (main import_module args pr) = MainRaised (FromComplete NotImplementedError)
  /\ stdout (snd (main import_module args pr)) = stdout pr
  /\ sys_path (snd (main import_module args pr)) = insert_curdir (sys_path pr).
Proof.
  intros E Hi Ha Hs. unfold main. rewrite E, Hi, Ha. unfold complete.
  apply String.eqb_neq in Hs. rewrite Hs. cbn. auto.
Qed.

Lemma main_other_shell_witness :
  fst (main one_module (mkNamespace "tool.cli.parser" "zsh" None None None false)
         fresh_process)
  = MainRaised (FromComplete NotImplementedError)
  /\ stdout (snd (main one_module
                    (mkNamespace "tool.cli.parser" "zsh" None None None false)
                    fresh_process)) = stdout fresh_process
  /\ sys_path (snd (main one_module
                      (mkNamespace "tool.cli.parser" "zsh" None None None false)
                      fresh_process)) = insert_curdir (sys_path fresh_process).
Proof.
  apply (main_other_shell one_module
           (mkNamespace "tool.cli.parser" "zsh" None None None false) fresh_process
           "tool.cli" "parser"
           (<["make_parser" := a_function nested_parser]>
              (<["parser" := a_parser scenario_parser]> ∅))
           (a_parser scenario_parser)).
  - reflexivity.
  - reflexivity.
  - vm_compute. reflexivity.
  - discriminate.
Defined.

(** ** [sorted] on strings *)

Lemma ltb_false_leb (s t : string) : String.ltb t s = false <-> String.leb s t = true.
Proof.
  unfold String.ltb, String.leb. rewrite (String.compare_antisym t s).
  destruct (String.compare s t); cbn; split; congruence.
Qed.

Lemma ltb_asym (s t : string) : String.ltb s t = true -> String.ltb t s = false.
Proof.
  unfold String.ltb. rewrite (String.compare_antisym s t).
  destruct (String.compare t s); cbn; congruence.
Qed.

Lemma leb_trans (a b c : string) :
  String.leb a b = true -> String.leb b c = true -> String.leb a c = true.
Proof.
  intros H1 H2. apply Is_true_true. apply Is_true_true in H1, H2.
  change (String.le a c). transitivity b; assumption.
Qed.

Lemma ltb_leb_trans (p x y : string) :
  String.ltb p x = true -> String.ltb y x = false -> String.ltb p y = true.
Proof.
  intros H1 H2. destruct (String.ltb p y) eqn:E; [reflexivity|].
  apply ltb_false_leb in E, H2. pose proof (leb_trans _ _ _ H2 E) as H.
  apply ltb_false_leb in H. congruence.
Qed.

Lemma str_lt_le (a b : obj) : str_lt a b -> str_le a b.
Proof. intros (s & t & -> & -> & H). exists s, t. auto using ltb_asym. Qed.

Lemma str_le_trans (a b c : obj) : str_le a b -> str_le b c -> str_le a c.
Proof.
  intros (s & t & -> & -> & H1) (t' & u & E & -> & H2). injection E as <-.
  exists s, u. repeat split. apply ltb_false_leb.
  apply ltb_false_leb in H1, H2. eapply leb_trans; eauto.
Qed.

Lemma str_lt_le_trans (a b c : obj) : str_lt a b -> str_le b c -> str_lt a c.
Proof.
  intros (s & t & -> & -> & H1) (t' & u & E & -> & H2). injection E as <-.
  exists s, u. repeat split. eapply ltb_leb_trans; eauto.
Qed.

Lemma str_lt_trans (a b c : obj) : str_lt a b -> str_lt b c -> str_lt a c.
Proof. intros H1 H2. eapply str_lt_le_trans; eauto using str_lt_le. Qed.

Lemma py_lt_str_lt (a b : obj) : is_str a -> is_str b -> py_lt a b = true -> str_lt a b.
Proof. intros [s ->] [t ->] H. exists s, t. auto. Qed.

Lemma py_lt_str_le (a b : obj) : is_str a -> is_str b -> py_lt b a = false -> str_le a b.
Proof. intros [s ->] [t ->] H. exists s, t. auto. Qed.

Lemma str_lt_py_lt (a b : obj) : str_lt a b -> py_lt a b = true.
Proof. intros (s & t & -> & -> & H). exact H. Qed.

(** A run that [run_while] continues keeps its condition between
    neighbours. *)
Lemma run_while_Sorted (R : obj -> obj -> Prop) (continue : obj -> obj -> bool)
    (l : list obj) :
  (forall a b, continue a b = true -> R a b) ->
  forall prev run rest,
    run_while continue prev l = (run, rest) -> Sorted R (prev :: run).
Proof.
  intros HR. induction l as [|x r IH]; intros prev run rest H; cbn in H.
  - injection H as <- _. repeat constructor.
  - destruct (continue prev x) eqn:E.
    + destruct (run_while continue x r) as [run' rest'] eqn:E'.
      injection H as <- _. constructor; [eapply IH; eauto|].
      constructor. auto.
    + injection H as <- _. repeat constructor.
Qed.

Lemma Sorted_strs (R : obj -> obj -> Prop) (cond : obj -> obj -> Prop) (l : list obj) :
  (forall a b, is_str a -> is_str b -> cond a b -> R a b) ->
  Forall is_str l -> Sorted cond l -> Sorted R l.
Proof.
  intros HR Hl Hs. induction Hs as [|x l Hs IH Hd]; [constructor|].
  apply Forall_cons in Hl as [Hx Hl]. constructor; [auto|].
  destruct Hd as [|y l' Hxy]; constructor.
  apply Forall_cons in Hl as [Hy _]. auto.
Qed.

Lemma StronglySorted_rev (R : obj -> obj -> Prop) (l : list obj) :
  StronglySorted R l -> StronglySorted (fun a b => R b a) (rev l).
Proof.
  induction 1 as [|x l Hs IH Hx]; cbn [rev]; [constructor|].
  apply StronglySorted_app_2; [|exact IH|repeat constructor].
  intros a b Ha Hb. apply list_elem_of_In in Ha. apply in_rev in Ha.
  apply list_elem_of_In in Hb. destruct Hb as [<-|[]].
  rewrite List.Forall_forall in Hx. auto.
Qed.

Lemma StronglySorted_impl (R R' : obj -> obj -> Prop) (l : list obj) :
  (forall a b, R a b -> R' a b) -> StronglySorted R l -> StronglySorted R' l.
Proof.
  intros HR. induction 1 as [|x l Hs IH Hx]; constructor; [exact IH|].
  eapply Forall_impl; eauto.
Qed.

Lemma count_run_sorted (l run rest : list obj) :
  Forall is_str l -> count_run l = (run, rest) -> StronglySorted str_le run.
Proof.
  intros Hl. destruct l as [|x [|y r]]; cbn; intros H.
  - injection H as <- _. constructor.
  - injection H as <- _. repeat constructor.
  - assert (forall run' rest', (run' ++ rest')%list = r ->
                               Forall is_str (x :: y :: run')) as Hrun.
    { intros run' rest' <-. apply Forall_cons in Hl as [Hx Hl].
      apply Forall_cons in Hl as [Hy Hl]. apply Forall_app in Hl as [Hl _].
      repeat constructor; assumption. }
    apply Forall_cons in Hl as [Hx Hl]. apply Forall_cons in Hl as [Hy _].
    destruct (py_lt y x) eqn:Hyx.
    + destruct (run_while _ y r) as [run' rest'] eqn:E. injection H as <- _.
      pose proof (Hrun _ _ (run_while_app _ _ _ _ _ E)) as Hs.
      apply (run_while_Sorted (fun a b => py_lt b a = true)) in E; [|auto].
      assert (Sorted (fun a b => str_lt b a) (x :: y :: run')) as S.
      { apply (Sorted_strs _ (fun a b => py_lt b a = true)); [|exact Hs|].
        - intros a b Ha Hb. apply py_lt_str_lt; assumption.
        - constructor; [exact E|]. constructor. exact Hyx. }
      apply Sorted.Sorted_StronglySorted in S.
      2:{ intros a b c H1 H2. eapply str_lt_trans; eauto. }
      apply StronglySorted_rev in S.
      eapply StronglySorted_impl; [|exact S]. apply str_lt_le.
    + destruct (run_while _ y r) as [run' rest'] eqn:E. injection H as <- _.
      pose proof (Hrun _ _ (run_while_app _ _ _ _ _ E)) as Hs.
      apply (run_while_Sorted (fun a b => py_lt b a = false)) in E.
      2:{ intros a b Hc. apply negb_true_iff in Hc. exact Hc. }
      assert (Sorted str_le (x :: y :: run')) as S.
      { apply (Sorted_strs _ (fun a b => py_lt b a = false)); [|exact Hs|].
        - intros a b Ha Hb. apply py_lt_str_le; assumption.
        - constructor; [exact E|]. constructor. exact Hyx. }
      apply Sorted.Sorted_StronglySorted in S; [exact S|].
      intros a b c. apply str_le_trans.
Qed.

Lemma StronglySorted_lookup (R : obj -> obj -> Prop) (l : list obj) :
  StronglySorted R l ->
  forall i j x y, (i < j)%nat -> l !! i = Some x -> l !! j = Some y -> R x y.
Proof.
  induction 1 as [|z l Hs IH Hz]; intros i j x y Hij Hi Hj; [discriminate|].
  destruct j as [|j]; [lia|]. cbn in Hj. destruct i as [|i].
  - cbn in Hi. injection Hi as <-. rewrite List.Forall_forall in Hz.
    apply Hz. apply list_elem_of_In. eapply list_elem_of_lookup_2; eauto.
  - cbn in Hi. apply (IH i j); [lia|assumption|assumption].
Qed.

(** The binary search ends where the elements up to [pivot] stop: before
    the place nothing is after [pivot], from the place on everything is. *)
Lemma bisect_spec (a : list obj) (pivot : obj) :
  StronglySorted str_le a -> Forall is_str a -> is_str pivot ->
  forall steps l r,
    (r - l < steps)%nat -> (l <= r)%nat -> (r <= length a)%nat ->
    (forall i x, (i < l)%nat -> a !! i = Some x -> str_le x pivot) ->
    (forall i x, (r <= i)%nat -> a !! i = Some x -> str_lt pivot x) ->
    (forall i x, (i < bisect steps a pivot l r)%nat -> a !! i = Some x -> str_le x pivot)
    /\ (forall i x, (bisect steps a pivot l r <= i)%nat -> a !! i = Some x ->
                    str_lt pivot x).
Proof.
  intros Hs Ha Hp. induction steps as [|n IH]; intros l r Hn Hlr Hr Hlow Hhigh; [lia|].
  cbn [bisect]. destruct (l <? r)%nat eqn:E.
  2:{ apply Nat.ltb_ge in E. assert (l = r) as -> by lia. auto. }
  apply Nat.ltb_lt in E.
  assert ((r - l) / 2 < r - l)%nat as Hhalf by (apply Nat.div_lt; lia).
  set (p := (l + (r - l) / 2)%nat) in *.
  assert (l <= p /\ p < r)%nat as [Hlp Hpr] by (subst p; lia).
  destruct (lookup_lt_is_Some_2 a p ltac:(lia)) as [xp Hxp].
  rewrite (nth_lookup_Some _ _ _ _ Hxp).
  assert (is_str xp) as Hxs.
  { rewrite List.Forall_forall in Ha. apply Ha, list_elem_of_In.
    eapply list_elem_of_lookup_2; eauto. }
  destruct (py_lt pivot xp) eqn:Hlt.
  - apply IH; [lia|lia|lia|exact Hlow|].
    intros i x Hi Hx. apply py_lt_str_lt in Hlt; [|assumption|assumption].
    destruct (Nat.eq_dec i p) as [->|Hne].
    + rewrite Hxp in Hx. injection Hx as <-. exact Hlt.
    + eapply str_lt_le_trans; [exact Hlt|].
      apply (StronglySorted_lookup _ _ Hs p i); [lia|assumption|assumption].
  - apply IH; [lia|lia|lia| |exact Hhigh].
    intros i x Hi Hx. apply py_lt_str_le in Hlt; [|assumption|assumption].
    destruct (Nat.eq_dec i p) as [->|Hne].
    + rewrite Hxp in Hx. injection Hx as <-. exact Hlt.
    + eapply str_le_trans; [|exact Hlt].
      apply (StronglySorted_lookup _ _ Hs i p); [lia|assumption|assumption].
Qed.

Lemma insert_pivot_sorted (a : list obj) (pivot : obj) :
  StronglySorted str_le a -> Forall is_str a -> is_str pivot ->
  StronglySorted str_le (insert_pivot a pivot).
Proof.
  intros Hs Ha Hp. unfold insert_pivot.
  destruct (bisect_spec a pivot Hs Ha Hp (S (length a)) 0 (length a))
    as [Hlow Hhigh]; [lia|lia|lia|intros; lia|
      intros i x Hi Hx; apply lookup_lt_Some in Hx; lia|].
  set (k := bisect (S (length a)) a pivot 0 (length a)) in *.
  rewrite <- (take_drop k a) in Hs.
  apply StronglySorted_app in Hs as (Hcross & Ht & Hd).
  assert (forall x, In x (take k a) -> str_le x pivot) as Hl.
  { intros x Hx. apply list_elem_of_In, list_elem_of_lookup in Hx as [i Hi].
    apply lookup_take_Some in Hi as [Hi Hik]. eauto. }
  assert (forall x, In x (drop k a) -> str_lt pivot x) as Hh.
  { intros x Hx. apply list_elem_of_In, list_elem_of_lookup in Hx as [i Hi].
    rewrite lookup_drop in Hi. apply (Hhigh (k + i)%nat); [lia|exact Hi]. }
  apply StronglySorted_app_2; [|exact Ht|].
  - intros x y Hx Hy. apply list_elem_of_In in Hx. apply list_elem_of_In in Hy.
    destruct Hy as [<-|Hy]; [auto|].
    eapply str_le_trans; [apply Hl, Hx|]. apply str_lt_le, Hh, Hy.
  - constructor; [exact Hd|]. rewrite List.Forall_forall.
    intros y Hy. apply str_lt_le, Hh, Hy.
Qed.

Lemma binarysort_sorted (rest : list obj) :
  forall run,
    StronglySorted str_le run -> Forall is_str run -> Forall is_str rest ->
    StronglySorted str_le (binarysort run rest).
Proof.
  unfold binarysort. induction rest as [|x r IH]; intros run Hs Hr Hx; cbn [fold_left].
  - exact Hs.
  - apply Forall_cons in Hx as [Hx Hrest]. apply IH; [|
      rewrite insert_pivot_Permutation; constructor; assumption|exact Hrest].
    apply insert_pivot_sorted; assumption.
Qed.

(** On strings, [sorted] gives an ascending list. *)
Lemma sorted_ascending (l : list obj) :
  Forall is_str l -> StronglySorted str_le (sorted l).
Proof.
  intros Hl. unfold sorted. destruct (count_run l) as [run rest] eqn:E.
  pose proof (count_run_Permutation _ _ _ E) as P.
  rewrite <- P in Hl. apply Forall_app in Hl as [Hrun Hrest].
  apply binarysort_sorted; [|exact Hrun|exact Hrest].
  eapply count_run_sorted; [|exact E]. rewrite <- P. apply Forall_app. auto.
Qed.

Lemma filter_all (f : obj -> bool) (l : list obj) :
  (forall x, In x l -> f x = true) -> List.filter f l = l.
Proof.
  induction l as [|x r IH]; intros H; cbn; [reflexivity|].
  rewrite (H x (or_introl eq_refl)), IH; [reflexivity|].
  intros y Hy. apply H. right. exact Hy.
Qed.

(** X14: for a root with one positional whose choices are all literal, as
    with the sub-parsers of a program, the commands are these names in
    ascending order of their code points. *)
Theorem commands_ascending (parser : ArgumentParser) (sub : PositionalAction)
    (root_prefix : string) (cf : option (gmap string string)) (w : World)
    (commands : list obj) (global_options : list string) (lines : list Line) :
  _get_positional_actions parser = [sub] ->
  Forall is_str (iter (choices sub)) ->
  fst (print_bash_commands parser root_prefix cf w)
  = Return (commands, global_options, lines) ->
  StronglySorted str_le commands /\ Permutation commands (iter (choices sub)).
Proof.
  intros Hp Hl H. unfold print_bash_commands in H.
  destruct (recurse _ _ _ _ _ _) as [[cs|e|] st'] eqn:E; try discriminate H.
  cbn in H. injection H as -> _ _.
  apply recurse_commands in E. subst commands.
  unfold sorted_literals. rewrite Hp. cbn [flat_map]. rewrite app_nil_r.
  rewrite filter_all.
  - split; [apply sorted_ascending, Hl|apply sorted_Permutation].
  - intros x Hx. apply (Permutation_in _ (sorted_Permutation _)) in Hx.
    rewrite List.Forall_forall in Hl. destruct (Hl _ Hx) as [s ->]. reflexivity.
Qed.

Lemma commands_ascending_witness :
  StronglySorted str_le [Str "pull"; Str "push"]
  /\ Permutation [Str "pull"; Str "push"] [Str "push"; Str "pull"].
Proof.
  apply (commands_ascending scenario_parser
           (mkPositional "command"
              [(Str "push", Some push_parser); (Str "pull", Some pull_parser)])
           "_shtab_tool" None module_loaded [Str "pull"; Str "push"] ["--verbose"]
           [Line_opts "_shtab_tool_pull" [];
            Line_compgen "_shtab_tool_pull" "_shtab_compgen_files";
            Line_opts "_shtab_tool_push" ["--force"]]).
  - reflexivity.
  - repeat constructor; eexists; reflexivity.
  - vm_compute. reflexivity.
Defined.

(** ** [sorted] on markers *)

Lemma run_while_markers (l : list obj) :
  Forall (fun o => isinstance_Choice o = true) l ->
  forall prev,
    isinstance_Choice prev = true ->
    run_while (fun prev next => negb (py_lt next prev)) prev l = (l, []).
Proof.
  induction 1 as [|x r Hx Hr IH]; intros prev Hp; cbn; [reflexivity|].
  destruct prev as [s|c]; [discriminate|]. rewrite nothing_lt_marker. cbn.
  rewrite IH by exact Hx. reflexivity.
Qed.

(** X15: a choices list that holds markers only, as [Optional.FILE] and
    [Required.FILE] do, comes out of [sorted] as it went in: the traversal
    meets its markers in the order of the list. *)
Theorem sorted_markers_unchanged (l : list obj) :
  Forall (fun o => isinstance_Choice o = true) l -> sorted l = l.
Proof.
  intros Hl. unfold sorted. destruct l as [|x [|y r]]; [reflexivity|reflexivity|].
  apply Forall_cons in Hl as [Hx Hl]. apply Forall_cons in Hl as [Hy Hr].
  cbn [count_run]. destruct x as [s|c]; [discriminate|].
  rewrite nothing_lt_marker, (run_while_markers r Hr y Hy). reflexivity.
Qed.

Lemma sorted_markers_unchanged_witness :
  sorted (Required.DIRECTORY ++ Optional.FILE ++ Required.FILE)%list
  = (Required.DIRECTORY ++ Optional.FILE ++ Required.FILE)%list.
Proof.
  apply (sorted_markers_unchanged
           (Required.DIRECTORY ++ Optional.FILE ++ Required.FILE)%list).
  repeat constructor.
Defined.
